(** * gr-satellites: the Doppler correction block

    A shallow embedding of [lib/doppler_correction_impl.cc]: the loader of the
    Doppler file ([read_doppler_file]), the constructor, and the streaming
    routine [work] with its table cursor, its time anchor and its phase
    accumulator.

    Conventions of the embedding:
    - a C++ [double] is a primitive binary64 [float]; every arithmetic
      operation of the source is one correctly rounded operation here (round
      to nearest, ties to even, no fused multiply-add), and the comparisons
      [<], [<=], [==] are [ltb], [leb], [eqb] (false on NaN);
    - [std::vector<double>] is [list float]; [v[i]] out of range is undefined
      behaviour in C++ and is [None] here;
    - [size_t] indices are [nat] (the vectors are far shorter than 2^64);
      [uint64_t] sample counters are [Z] reduced modulo 2^64;
    - a call ends in an [outcome]: it returns, throws, or runs into
      undefined behaviour. *)

From Stdlib Require Import Ascii String ZArith List Bool Lia Floats.
Import ListNotations.

Set Warnings "-register-all".

(** ** Facts about the IEEE 754 operations

    For any format ([prec], [emax]): multiplying by a power of two written
    [2^k * 2^-k] gives the number back, and the difference of two distinct
    numbers is not zero (gradual underflow). *)

Module SF.
Section Format.
Variables prec emax : Z.
Hypothesis prec_pos : (0 < prec)%Z.

(** *** Scaling by a power of two is exact *)

Lemma iter_pos_iter {A} (f : A -> A) p : forall x,
  iter_pos f p x = Pos.iter f x p.
Proof.
  induction p as [p IH|p IH|]; intros x; simpl.
  - now rewrite !IH, !Pos.iter_swap.
  - now rewrite !IH.
  - reflexivity.
Qed.

Lemma digits2_pos_shift m k :
  digits2_pos (Pos.iter xO m k) = (digits2_pos m + k)%positive.
Proof.
  induction k as [|k IH] using Pos.peano_ind.
  - simpl. now rewrite Pos.add_1_r.
  - rewrite Pos.iter_succ. simpl. rewrite IH. now rewrite Pos.add_succ_r.
Qed.

Lemma shr_shift_exact k : forall m,
  iter_pos shr_1 k (Build_shr_record (Zpos (Pos.iter xO m k)) false false)
  = Build_shr_record (Zpos m) false false.
Proof.
  induction k as [|k IH] using Pos.peano_ind; intros m.
  - reflexivity.
  - rewrite iter_pos_iter, Pos.iter_succ_r, <- iter_pos_iter.
    rewrite Pos.iter_succ. simpl. apply IH.
Qed.

Lemma mul_pow2 m k : (m * Pos.iter xO 1 k = Pos.iter xO m k)%positive.
Proof.
  induction k as [|k IH] using Pos.peano_ind.
  - simpl. now rewrite Pos.mul_comm.
  - rewrite !Pos.iter_succ. rewrite Pos.mul_xO_r. now rewrite IH.
Qed.

Lemma bounded_inv m e :
  bounded prec emax m e = true ->
  fexp prec emax (Zpos (digits2_pos m) + e) = e /\ (e <= emax - prec)%Z.
Proof.
  unfold bounded, canonical_mantissa. intros H.
  apply andb_true_iff in H as [H1 H2].
  split; [now apply Z.eqb_eq|now apply Z.leb_le].
Qed.

(** Rounding a canonical significand scaled by [2^k] at exponent [e - k]
    gives the number back. *)
Lemma binary_round_aux_scaled s m e k :
  bounded prec emax m e = true ->
  binary_round_aux prec emax s (Zpos (Pos.iter xO m k)) (e + Zneg k) loc_Exact
  = S754_finite s m e.
Proof.
  intros B. destruct (bounded_inv _ _ B) as [C L].
  unfold binary_round_aux, shr_fexp. simpl Zdigits2.
  rewrite digits2_pos_shift.
  replace (Zpos (digits2_pos m + k) + (e + Zneg k))%Z
    with (Zpos (digits2_pos m) + e)%Z by lia.
  rewrite C.
  replace (e - (e + Zneg k))%Z with (Zpos k) by lia.
  simpl shr_record_of_loc. unfold shr at 1.
  rewrite shr_shift_exact.
  cbn [shr_m loc_of_shr_record round_nearest_even shr_record_of_loc Zdigits2].
  replace (e + Zneg k + Zpos k)%Z with e by lia.
  rewrite C, Z.sub_diag. simpl.
  apply Z.leb_le in L. now rewrite L.
Qed.

Definition pow2 (k : positive) : spec_float :=
  S754_finite false (Pos.iter xO 1%positive k) (Zneg k).

Lemma SFmul_one_r k x :
  SpecFloat.valid_binary prec emax x = true -> SFmul prec emax x (pow2 k) = x.
Proof.
  destruct x as [s|s| |s m e]; simpl; intros V.
  - now rewrite xorb_false_r.
  - now rewrite xorb_false_r.
  - reflexivity.
  - rewrite xorb_false_r, mul_pow2. now apply binary_round_aux_scaled.
Qed.

Lemma SFmul_one_l k x :
  SpecFloat.valid_binary prec emax x = true -> SFmul prec emax (pow2 k) x = x.
Proof.
  destruct x as [s|s| |s m e]; intros V; try reflexivity.
  unfold pow2, SFmul. rewrite Pos.mul_comm, mul_pow2, Z.add_comm.
  now apply binary_round_aux_scaled.
Qed.


(** *** Subtraction of distinct numbers does not cancel to zero *)

Lemma digits2_pos_bounds m :
  (2 ^ (Zpos (digits2_pos m) - 1) <= Zpos m < 2 ^ Zpos (digits2_pos m))%Z.
Proof.
  assert (E : forall d, (2 ^ Zpos d = 2 * 2 ^ (Zpos d - 1))%Z).
  { intros d. rewrite <- Z.pow_succ_r by lia. f_equal. lia. }
  induction m as [p IH|p IH|]; simpl digits2_pos.
  - rewrite Pos2Z.inj_succ, Z.pow_succ_r by lia.
    replace (Z.succ (Zpos (digits2_pos p)) - 1)%Z with (Zpos (digits2_pos p)) by lia.
    rewrite (Pos2Z.inj_xI p). specialize (E (digits2_pos p)).
    revert E IH. generalize (2 ^ Zpos (digits2_pos p))%Z (2 ^ (Zpos (digits2_pos p) - 1))%Z. intros; lia.
  - rewrite Pos2Z.inj_succ, Z.pow_succ_r by lia.
    replace (Z.succ (Zpos (digits2_pos p)) - 1)%Z with (Zpos (digits2_pos p)) by lia.
    rewrite (Pos2Z.inj_xO p). specialize (E (digits2_pos p)).
    revert E IH. generalize (2 ^ Zpos (digits2_pos p))%Z (2 ^ (Zpos (digits2_pos p) - 1))%Z. intros; lia.
  - simpl. lia.
Qed.

Lemma shr_1_m r : (0 <= shr_m r)%Z -> shr_m (shr_1 r) = (shr_m r / 2)%Z.
Proof.
  destruct r as [m r s]. simpl. intros H.
  destruct m as [|[p|p|]|p]; simpl; try reflexivity; try lia.
  - rewrite (Pos2Z.inj_xI p). apply Z.div_unique with 1%Z; lia.
  - rewrite (Pos2Z.inj_xO p). apply Z.div_unique with 0%Z; lia.
Qed.

Lemma shr_iter_m n : forall r, (0 <= shr_m r)%Z ->
  shr_m (iter_pos shr_1 n r) = (shr_m r / 2 ^ Zpos n)%Z.
Proof.
  induction n as [|n IH] using Pos.peano_ind; intros r H.
  - simpl iter_pos. rewrite shr_1_m by exact H. reflexivity.
  - rewrite iter_pos_iter, Pos.iter_succ, <- iter_pos_iter.
    rewrite shr_1_m.
    + rewrite IH by exact H. rewrite Pos2Z.inj_succ, Z.pow_succ_r by lia.
      rewrite Z.div_div by lia. f_equal. lia.
    + rewrite IH by exact H. apply Z.div_pos; [exact H|]. apply Z.pow_pos_nonneg; lia.
Qed.

Local Abbreviation emin := (SpecFloat.emin prec emax).

Lemma fexp_ge_emin x : (emin <= fexp prec emax x)%Z.
Proof. unfold fexp. lia. Qed.

(** Above the least exponent, the alignment shift keeps a positive
    significand positive. *)
Lemma shr_fexp_positive m e l :
  (0 < m)%Z -> (emin <= e)%Z ->
  (0 < shr_m (fst (shr_fexp prec emax m e l)))%Z /\
  (emin <= snd (shr_fexp prec emax m e l))%Z.
Proof.
  intros Hm He. unfold shr_fexp, shr.
  assert (M : shr_m (shr_record_of_loc m l) = m) by (destruct l as [|[]]; reflexivity).
  destruct (fexp prec emax (Zdigits2 m + e) - e)%Z as [|p|p] eqn:En; simpl;
    rewrite ?M; try (split; [exact Hm|exact He]).
  rewrite shr_iter_m by (rewrite M; lia). rewrite M.
  destruct m as [|q|q]; try lia. simpl Zdigits2 in En.
  pose proof (digits2_pos_bounds q) as [B _].
  assert (P : (Zpos p <= Zpos (digits2_pos q) - 1)%Z) by (unfold fexp in En; lia).
  split; [|lia].
  apply Z.div_str_pos. split; [apply Z.pow_pos_nonneg; lia|].
  eapply Z.le_trans; [|exact B]. apply Z.pow_le_mono_r; lia.
Qed.

Lemma round_nearest_even_positive m l :
  (0 < m)%Z -> (0 < round_nearest_even m l)%Z.
Proof.
  intros H. destruct l as [|[]]; simpl; try lia. destruct (Z.even m); lia.
Qed.

Definition nonzero_number (x : spec_float) : bool :=
  match x with
  | S754_finite _ _ _ | S754_infinity _ => true
  | S754_zero _ | S754_nan => false
  end.

Lemma binary_round_aux_nonzero s m e l :
  (0 < m)%Z -> (emin <= e)%Z ->
  nonzero_number (binary_round_aux prec emax s m e l) = true.
Proof.
  intros Hm He. unfold binary_round_aux.
  pose proof (shr_fexp_positive m e l Hm He) as [P1 E1].
  destruct (shr_fexp prec emax m e l) as [mrs' e']. simpl in P1, E1.
  pose proof (round_nearest_even_positive _ (loc_of_shr_record mrs') P1) as P2.
  pose proof (shr_fexp_positive _ e' loc_Exact P2 E1) as [P3 _].
  destruct (shr_fexp prec emax _ e' loc_Exact) as [mrs'' e'']. simpl in P3.
  destruct (shr_m mrs''); try lia.
  now destruct (e'' <=? emax - prec)%Z.
Qed.

Lemma binary_normalize_nonzero n e :
  n <> 0%Z -> (emin <= e)%Z ->
  nonzero_number (binary_normalize prec emax n e false) = true.
Proof.
  intros Hn He.
  assert (R : forall s m, nonzero_number (binary_round prec emax s m e) = true).
  { intros s m. unfold binary_round, shl_align.
    pose proof (fexp_ge_emin (Zpos (digits2_pos m) + e)).
    destruct (fexp prec emax (Zpos (digits2_pos m) + e) - e)%Z;
      apply binary_round_aux_nonzero; lia. }
  destruct n; [now elim Hn|apply R|apply R].
Qed.

Lemma bounded_emin m e : bounded prec emax m e = true -> (emin <= e)%Z.
Proof.
  intros B. destruct (bounded_inv _ _ B) as [C _]. rewrite <- C. apply fexp_ge_emin.
Qed.

(** Two canonical significands that align to the same integer are the same. *)
Lemma aligned_equal mx ex my ey :
  bounded prec emax mx ex = true -> bounded prec emax my ey = true ->
  fst (shl_align mx ex (Z.min ex ey)) = fst (shl_align my ey (Z.min ex ey)) ->
  ex = ey /\ mx = my.
Proof.
  intros Bx By. destruct (bounded_inv _ _ Bx) as [Cx _].
  destruct (bounded_inv _ _ By) as [Cy _].
  unfold shl_align.
  destruct (Z.min ex ey - ex)%Z as [|p|p] eqn:Dx;
  destruct (Z.min ex ey - ey)%Z as [|q|q] eqn:Dy; simpl; intros H; try lia.
  - subst mx. rewrite digits2_pos_shift in Cx.
    replace (Zpos (digits2_pos my + q) + ex)%Z
      with (Zpos (digits2_pos my) + ey)%Z in Cx by lia. lia.
  - subst my. rewrite digits2_pos_shift in Cy.
    replace (Zpos (digits2_pos mx + p) + ey)%Z
      with (Zpos (digits2_pos mx) + ex)%Z in Cy by lia. lia.
Qed.

Lemma SFsub_nonzero x y :
  SpecFloat.valid_binary prec emax x = true ->
  SpecFloat.valid_binary prec emax y = true ->
  SFltb y x = true ->
  match y with S754_infinity _ => false | _ => true end = true ->
  nonzero_number (SFsub prec emax x y) = true.
Proof.
  intros Vx Vy Lt Fy. unfold SFltb in Lt.
  destruct x as [sx|sx| |sx mx ex], y as [sy|sy| |sy my ey];
    simpl in *; try discriminate; try reflexivity.
  apply binary_normalize_nonzero.
  - intros N.
    assert (S : sx = sy)
      by (destruct sx, sy; try reflexivity; unfold cond_Zopp in N; lia).
    subst sy.
    assert (A : fst (shl_align mx ex (Z.min ex ey))
                = fst (shl_align my ey (Z.min ex ey)))
      by (destruct sx; unfold cond_Zopp in N; lia).
    destruct (aligned_equal _ _ _ _ Vx Vy A) as [-> ->].
    rewrite Z.compare_refl, Pos.compare_cont_refl in Lt.
    destruct sx; discriminate.
  - pose proof (bounded_emin _ _ Vx). pose proof (bounded_emin _ _ Vy). lia.
Qed.

End Format.
End SF.

(** ** Binary64 facts used by the block *)

Module Double.
Local Open Scope float_scope.

(** [GR_M_PI] of gnuradio/math.h, [3.14159265358979323846], as the nearest
    binary64 value. *)
Definition GR_M_PI : float := 0x1.921fb54442d18p+1.

Definition is_finite (x : float) : bool :=
  match Prim2SF x with
  | S754_zero _ | S754_finite _ _ _ => true
  | S754_infinity _ | S754_nan => false
  end.

(** Conversion of an integer to [double] ([static_cast<double>] of a
    [uint64_t], or the implicit conversion of a [long]): the nearest binary64
    value, ties to even. *)
Definition Z2double (z : Z) : float :=
  SF2Prim (binary_normalize prec emax z 0 false).

Ltac sign_cases :=
  repeat match goal with s : bool |- _ => destruct s end;
  simpl; try congruence; try reflexivity.

Ltac cmp_cases :=
  repeat match goal with
  | |- context [Z.compare ?a ?b] => destruct (Z.compare_spec a b)
  | H : context [Z.compare ?a ?b] |- _ => destruct (Z.compare_spec a b)
  | |- context [Pos.compare_cont Eq ?a ?b] =>
      change (Pos.compare_cont Eq a b) with (Pos.compare a b);
      destruct (Pos.compare_spec a b)
  | H : context [Pos.compare_cont Eq ?a ?b] |- _ =>
      change (Pos.compare_cont Eq a b) with (Pos.compare a b) in H;
      destruct (Pos.compare_spec a b)
  end; simpl in *; try congruence; try lia.

Ltac sf_order x y z :=
  destruct x as [?s|?s| |?s ?m ?e], y as [?s|?s| |?s ?m ?e],
           z as [?s|?s| |?s ?m ?e];
  simpl; try congruence; sign_cases; intros; cmp_cases.

Ltac sf_order2 x y :=
  destruct x as [?s|?s| |?s ?m ?e], y as [?s|?s| |?s ?m ?e];
  simpl; try congruence; sign_cases; intros; cmp_cases.

Lemma SFleb_trans x y z :
  SFleb x y = true -> SFleb y z = true -> SFleb x z = true.
Proof. unfold SFleb. sf_order x y z. Qed.

Lemma SFltb_leb_false t a b :
  SFltb t a = true -> SFleb a b = true -> SFleb b t = false.
Proof. unfold SFleb, SFltb. sf_order t a b. Qed.

Lemma SFleb_ltb_false a t : SFleb a t = true -> SFltb t a = false.
Proof. unfold SFleb, SFltb. sf_order2 a t. Qed.

Lemma SFltb_leb a b : SFltb a b = true -> SFleb a b = true.
Proof. unfold SFleb, SFltb. sf_order2 a b. Qed.

Lemma SFltb_refl_r a b : SFltb a b = true -> SFleb b b = true.
Proof. unfold SFleb, SFltb. sf_order2 a b. Qed.

Lemma SFleb_refl_l a b : SFleb a b = true -> SFleb a a = true.
Proof. unfold SFleb. sf_order2 a b. Qed.

Lemma leb_refl_l a b : (a <=? b) = true -> (a <=? a) = true.
Proof. rewrite !leb_spec. apply SFleb_refl_l. Qed.

Lemma leb_trans x y z :
  (x <=? y) = true -> (y <=? z) = true -> (x <=? z) = true.
Proof. rewrite !leb_spec. apply SFleb_trans. Qed.

Lemma ltb_leb_false t a b :
  (t <? a) = true -> (a <=? b) = true -> (b <=? t) = false.
Proof. rewrite ltb_spec, !leb_spec. apply SFltb_leb_false. Qed.

Lemma leb_ltb_false a t : (a <=? t) = true -> (t <? a) = false.
Proof. rewrite ltb_spec, leb_spec. apply SFleb_ltb_false. Qed.

Lemma ltb_leb a b : (a <? b) = true -> (a <=? b) = true.
Proof. rewrite ltb_spec, leb_spec. apply SFltb_leb. Qed.

Lemma ltb_refl_r a b : (a <? b) = true -> (b <=? b) = true.
Proof. rewrite ltb_spec, leb_spec. apply SFltb_refl_r. Qed.

(** *** Arithmetic at the ends of an interval *)

Definition is_zero_sf (x : spec_float) : bool :=
  match x with S754_zero _ => true | _ => false end.

Lemma prec_pos : (0 < prec)%Z.
Proof. reflexivity. Qed.

Lemma one_spec : Prim2SF 1 = SF.pow2 52.
Proof. reflexivity. Qed.

Lemma mul_one_l x : 1 * x = x.
Proof.
  apply Prim2SF_inj. rewrite mul_spec, one_spec.
  apply SF.SFmul_one_l. apply Prim2SF_valid.
Qed.

Lemma sub_self x : is_finite x = true -> x - x = 0.
Proof.
  unfold is_finite. intros F. apply Prim2SF_inj. rewrite sub_spec.
  change (Prim2SF 0) with (S754_zero false).
  destruct (Prim2SF x) as [s|s| |s m e]; try discriminate.
  - now destruct s.
  - unfold SF64sub, SFsub. now rewrite Z.sub_diag.
Qed.

Lemma sub_nonzero x y :
  (y <? x) = true -> is_finite y = true ->
  SF.nonzero_number (Prim2SF (x - y)) = true.
Proof.
  rewrite ltb_spec, sub_spec. unfold is_finite. intros L F.
  apply (SF.SFsub_nonzero prec emax prec_pos); try apply Prim2SF_valid; auto.
  now destruct (Prim2SF y).
Qed.

Lemma zero_div_nonzero z d :
  is_zero_sf (Prim2SF z) = true -> SF.nonzero_number (Prim2SF d) = true ->
  is_zero_sf (Prim2SF (z / d)) = true.
Proof.
  rewrite div_spec. now destruct (Prim2SF z), (Prim2SF d).
Qed.

Lemma one_sub_zero z : is_zero_sf (Prim2SF z) = true -> 1 - z = 1.
Proof.
  intros Z. apply Prim2SF_inj. rewrite sub_spec, one_spec.
  now destruct (Prim2SF z).
Qed.

Lemma zero_mul_finite z x :
  is_zero_sf (Prim2SF z) = true -> is_finite x = true ->
  is_zero_sf (Prim2SF (z * x)) = true.
Proof.
  unfold is_finite. rewrite mul_spec. now destruct (Prim2SF z), (Prim2SF x).
Qed.

Lemma SFeqb_refl x : x <> S754_nan -> SFeqb x x = true.
Proof.
  unfold SFeqb. destruct x as [s|s| |s m e]; simpl; intros H;
    try reflexivity; try (now destruct s); try congruence.
  rewrite Z.compare_refl, Pos.compare_cont_refl. now destruct s.
Qed.

Lemma add_zero_eqb x z :
  is_finite x = true -> is_zero_sf (Prim2SF z) = true -> (x + z =? x) = true.
Proof.
  unfold is_finite. rewrite eqb_spec, add_spec. intros F Z.
  destruct (Prim2SF z) as [sz| | |]; try discriminate.
  destruct (Prim2SF x) as [s|s| |s m e]; try discriminate.
  - now destruct s, sz.
  - apply SFeqb_refl. discriminate.
Qed.
End Double.

(** ** The frequency lookup of [work] (lines 80-96)

    The two vectors [times] and [freqs_rad_per_sample] and the cursor
    [d_current_index]. *)

Module Table.
Import Double.
Local Open Scope float_scope.

(** The guard of the [while] at line 82:
    [d_current_index + 1 < times.size() && times[d_current_index + 1] <= time]. *)
Definition advance_guard (times : list float) (time : float) (i : nat) : bool :=
  (i + 1 <? length times)%nat &&
  match nth_error times (i + 1) with
  | Some next => next <=? time
  | None => false
  end.

(** The [while] loop itself; each turn increments the cursor, so after
    [times.size() - d_current_index] turns the guard has failed
    ([advance_exit] below). *)
Fixpoint advance_loop (fuel : nat) (times : list float) (time : float)
    (i : nat) : nat :=
  match fuel with
  | O => i
  | S fuel' =>
      if advance_guard times time i
      then advance_loop fuel' times time (i + 1)
      else i
  end.

Definition advance (times : list float) (time : float) (i : nat) : nat :=
  advance_loop (length times - i) times time i.

(** Lines 82-96: advance the cursor, then hold or interpolate.  The result
    is the frequency and the new value of [d_current_index]; [None] is an
    out-of-range subscript (an empty table). *)
Definition query_frequency (times freqs_rad_per_sample : list float)
    (d_current_index : nat) (time : float) : option (float * nat) :=
  let i := advance times time d_current_index in
  match nth_error times i with
  | None => None
  | Some ti =>
      if (time <? ti) || (i + 1 =? length times)%nat then
        match nth_error freqs_rad_per_sample i with
        | Some fi => Some (fi, i)
        | None => None
        end
      else
        match nth_error times (i + 1),
              nth_error freqs_rad_per_sample i,
              nth_error freqs_rad_per_sample (i + 1) with
        | Some tn, Some fi, Some fn =>
            let alpha := (time - ti) / (tn - ti) in
            Some ((1.0 - alpha) * fi + alpha * fn, i)
        | _, _, _ => None
        end
  end.

(** The cursor positions used by a run of successive lookups. *)
Fixpoint cursor_trace (times : list float) (i : nat) (queries : list float)
    : list nat :=
  match queries with
  | [] => []
  | t :: rest =>
      let i' := advance times t i in
      i' :: cursor_trace times i' rest
  end.

(** The table invariant of the data model: [times] is non-decreasing. *)
Fixpoint nondecreasing (l : list float) : bool :=
  match l with
  | a :: (b :: _) as tl => (a <=? b) && nondecreasing tl
  | _ => true
  end.

Fixpoint nat_nondecreasing (l : list nat) : bool :=
  match l with
  | a :: (b :: _) as tl => (a <=? b)%nat && nat_nondecreasing tl
  | _ => true
  end.

(** *** The loop *)

Lemma advance_loop_ge fuel times time i :
  (i <= advance_loop fuel times time i)%nat.
Proof.
  revert i; induction fuel as [|k IH]; intros i; simpl; [lia|].
  destruct (advance_guard times time i); [|lia].
  specialize (IH (i + 1)%nat). lia.
Qed.

Lemma advance_ge times time i : (i <= advance times time i)%nat.
Proof. apply advance_loop_ge. Qed.

Lemma advance_guard_lt times time i :
  advance_guard times time i = true -> (i + 1 < length times)%nat.
Proof.
  unfold advance_guard. intros H.
  apply andb_true_iff in H as [H _]. now apply Nat.ltb_lt in H.
Qed.

Lemma advance_loop_exit fuel times time i :
  (length times - i <= fuel)%nat ->
  advance_guard times time (advance_loop fuel times time i) = false.
Proof.
  revert i; induction fuel as [|k IH]; intros i Hf; simpl.
  - destruct (advance_guard times time i) eqn:G; [|reflexivity].
    apply advance_guard_lt in G. lia.
  - destruct (advance_guard times time i) eqn:G; [|exact G].
    apply IH. lia.
Qed.

(** The fuel of [advance] never ends the loop early: on return the guard
    of the [while] is false. *)
Lemma advance_exit times time i :
  advance_guard times time (advance times time i) = false.
Proof. apply advance_loop_exit. lia. Qed.

Lemma advance_loop_lt fuel times time i :
  (i < length times)%nat ->
  (advance_loop fuel times time i < length times)%nat.
Proof.
  revert i; induction fuel as [|k IH]; intros i Hi; simpl; [exact Hi|].
  destruct (advance_guard times time i) eqn:G; [|exact Hi].
  apply IH. apply advance_guard_lt in G. lia.
Qed.

Lemma advance_lt times time i :
  (i < length times)%nat -> (advance times time i < length times)%nat.
Proof. apply advance_loop_lt. Qed.

Lemma advance_stay times time i :
  advance_guard times time i = false -> advance times time i = i.
Proof.
  unfold advance. destruct (length times - i)%nat; simpl; [reflexivity|].
  now intros ->.
Qed.

Lemma advance_step times time i :
  advance_guard times time i = true ->
  advance times time i = advance times time (i + 1).
Proof.
  intros G. pose proof (advance_guard_lt _ _ _ G) as Hlt.
  unfold advance.
  replace (length times - i)%nat with (S (length times - (i + 1))) by lia.
  simpl. now rewrite G.
Qed.

Lemma query_cursor times freqs i time f c :
  query_frequency times freqs i time = Some (f, c) ->
  c = advance times time i.
Proof.
  unfold query_frequency.
  destruct (nth_error times (advance times time i)); [|discriminate].
  destruct (_ || _).
  - destruct (nth_error freqs _); [|discriminate]. now intros [= _ <-].
  - destruct (nth_error times _); [|discriminate].
    destruct (nth_error freqs _); [|discriminate].
    destruct (nth_error freqs _); [|discriminate]. now intros [= _ <-].
Qed.

Lemma nat_nondecreasing_cons a l :
  (match l with [] => True | b :: _ => (a <= b)%nat end) ->
  nat_nondecreasing l = true -> nat_nondecreasing (a :: l) = true.
Proof.
  destruct l as [|b l]; simpl; [reflexivity|].
  intros Hab H. apply andb_true_iff. split; [now apply Nat.leb_le|exact H].
Qed.

(** The cursor never moves backwards, whatever the query times are. *)
Lemma cursor_trace_monotone times queries i :
  nat_nondecreasing (i :: cursor_trace times i queries) = true.
Proof.
  revert i; induction queries as [|t rest IH]; intros i; [reflexivity|].
  apply nat_nondecreasing_cons; [apply advance_ge|apply IH].
Qed.

(** *** Sorted tables *)

Lemma nondecreasing_tail a l :
  nondecreasing (a :: l) = true -> nondecreasing l = true.
Proof.
  destruct l as [|b l]; [reflexivity|]. simpl.
  intros H. now apply andb_true_iff in H as [_ H].
Qed.

Lemma nondecreasing_adjacent l i a b :
  nondecreasing l = true ->
  nth_error l i = Some a -> nth_error l (i + 1) = Some b ->
  (a <=? b) = true.
Proof.
  revert i; induction l as [|x l IH]; intros i Hs Ha Hb.
  - destruct i; discriminate.
  - destruct i as [|i].
    + simpl in Ha, Hb. injection Ha as ->.
      destruct l as [|y l]; [discriminate|]. injection Hb as ->.
      simpl in Hs. now apply andb_true_iff in Hs as [Hs _].
    + apply (IH i); [now apply nondecreasing_tail in Hs|exact Ha|exact Hb].
Qed.

(** In a sorted table every entry from [i] on that lies below the last one
    is passed by a query at or after the last time. *)
Lemma advance_loop_to_last times time last tl :
  nondecreasing times = true ->
  length times = S last ->
  nth_error times last = Some tl ->
  (tl <=? time) = true ->
  forall fuel i, (last - i <= fuel)%nat -> (i <= last)%nat ->
    advance_loop fuel times time i = last /\
    (forall ti, nth_error times i = Some ti -> (ti <=? tl) = true).
Proof.
  intros Hs Hlen Hl Ht.
  assert (Hup : forall k i, (last - i = k)%nat -> (i <= last)%nat ->
            forall ti, nth_error times i = Some ti -> (ti <=? tl) = true).
  { induction k as [|k IH]; intros i Hk Hi ti Hti.
    - assert (i = last) by lia. subst i. rewrite Hl in Hti.
      injection Hti as <-. exact (leb_refl_l _ _ Ht).
    - destruct (nth_error times (i + 1)) as [tn|] eqn:Hn.
      + eapply leb_trans; [eapply nondecreasing_adjacent; eauto|].
        apply (IH (i + 1)%nat); [lia|lia|exact Hn].
      + apply nth_error_None in Hn. lia. }
  induction fuel as [|k IH]; intros i Hf Hi.
  - split; [simpl; lia|]. apply (Hup (last - i)%nat); auto.
  - split; [|apply (Hup (last - i)%nat); auto].
    simpl. destruct (Nat.eq_dec i last) as [->|Hne].
    + unfold advance_guard. rewrite Hlen.
      replace (last + 1 <? S last)%nat with false; [reflexivity|].
      symmetry. apply Nat.ltb_ge. lia.
    + assert (G : advance_guard times time i = true).
      { unfold advance_guard. rewrite Hlen.
        replace (i + 1 <? S last)%nat with true
          by (symmetry; apply Nat.ltb_lt; lia).
        destruct (nth_error times (i + 1)) as [tn|] eqn:Hn.
        - simpl. eapply leb_trans; [|exact Ht].
          apply (Hup (last - (i + 1))%nat (i + 1)%nat); auto; lia.
        - apply nth_error_None in Hn. lia. }
      rewrite G. apply IH; lia.
Qed.
End Table.


(** ** Outcomes of a call *)

Inductive outcome (A : Type) : Type :=
| Returns (a : A)          (* normal return *)
| Throws (what : string)   (* an exception leaves the function *)
| Undefined                (* an out-of-range subscript: undefined behaviour *)
| Diverges.                (* the loop bound of the model was reached *)

Arguments Returns {A} a.
Arguments Throws {A} what.
Arguments Undefined {A}.
Arguments Diverges {A}.

Definition returned {A} (r : outcome A) : bool :=
  match r with Returns _ => true | _ => false end.

(** ** Formatted input of a [double] from a [std::ifstream]

    The block reads its table with [input_file >> time >> frequency].  The
    stream is the C++ standard library's, not the repository's; it is modelled
    as the standard describes it ([istream::sentry], [istream.formatted.arithmetic],
    [facet.num.get.virtuals]) in the "C" locale:
    - the sentry fails when the stream is not good on entry (it sets
      [failbit]), and when skipping white space reaches the end of the input
      (it sets [eofbit] and [failbit]); in both cases nothing is extracted and
      the operand of [>>] keeps its value;
    - otherwise the longest prefix that can start a decimal floating-point
      field is accumulated ([eofbit] is set when the input ends during this),
      and converted as [strtod] does; when the conversion fails [0] is stored
      and [failbit] is set; on overflow the largest finite value of the sign is
      stored and [failbit] is set. *)

Module IStream.
Local Open Scope char_scope.

Record istream := mk_istream {
  unread : list ascii;   (* what is left to read *)
  eofbit : bool;
  failbit : bool
}.

(** [std::ifstream input_file(filename)]: a file that cannot be opened leaves
    the stream with [failbit] set. *)
Definition open (contents : option string) : istream :=
  match contents with
  | Some s => mk_istream (list_ascii_of_string s) false false
  | None => mk_istream [] false true
  end.

Definition eof (s : istream) : bool := eofbit s.
Definition good (s : istream) : bool := negb (eofbit s) && negb (failbit s).

(** [isspace] of the "C" locale: space, [\t], [\n], [\v], [\f], [\r]. *)
Definition isspace (c : ascii) : bool :=
  let n := nat_of_ascii c in
  (n =? 32)%nat || ((9 <=? n)%nat && (n <=? 13)%nat).

Fixpoint skipws (s : list ascii) : list ascii :=
  match s with
  | c :: rest => if isspace c then skipws rest else s
  | [] => []
  end.

Definition digit_of (c : ascii) : option N :=
  let n := N_of_ascii c in
  if (48 <=? n)%N && (n <=? 57)%N then Some (n - 48)%N else None.

(** A run of decimal digits: its value appended to [acc], the number of
    digits, and the rest of the input. *)
Fixpoint scan_digits (s : list ascii) (acc : N) (count : nat)
    : N * nat * list ascii :=
  match s with
  | c :: rest =>
      match digit_of c with
      | Some d => scan_digits rest (10 * acc + d)%N (S count)
      | None => (acc, count, s)
      end
  | [] => (acc, count, [])
  end.

Definition scan_sign (s : list ascii) : bool * list ascii :=
  match s with
  | "-" :: rest => (true, rest)
  | "+" :: rest => (false, rest)
  | _ => (false, s)
  end.

(** An optional decimal point and the digits after it, appended to the
    integer digits [ip]. *)
Definition scan_fraction (s : list ascii) (ip : N) : N * nat * list ascii :=
  match s with
  | "." :: r => scan_digits r ip 0%nat
  | _ => (ip, 0%nat, s)
  end.

(** The characters accumulated for one field, kept as the number they spell:
    sign, the digits of the significand (integer and fraction digits read as
    one integer), how many digits and how many of them after the point,
    and the exponent part. *)
Record field := mk_field {
  f_neg : bool;
  f_mant : N;
  f_digits : nat;
  f_frac : nat;
  f_exp_seen : bool;
  f_exp_neg : bool;
  f_exp : N;
  f_exp_digits : nat
}.

(** Stage 2 of [num_get::get] for a floating-point operand: an optional sign,
    digits with at most one decimal point, and, once a digit has been seen, an
    [e] or [E] with an optional sign and digits.  Accumulation stops at the
    first character that cannot continue the field, or at the end of input. *)
Definition scan_field (s : list ascii) : field * list ascii :=
  let '(neg, s1) := scan_sign s in
  let '(ip, ni, s2) := scan_digits s1 0%N 0%nat in
  let '(m, nf, s3) := scan_fraction s2 ip in
  let no_exp := (mk_field neg m (ni + nf) nf false false 0%N 0, s3) in
  if (0 <? ni + nf)%nat then
    match s3 with
    | c :: r =>
        if (c =? "e") || (c =? "E") then
          let '(eneg, r1) := scan_sign r in
          let '(ev, ne, r2) := scan_digits r1 0%N 0%nat in
          (mk_field neg m (ni + nf) nf true eneg ev ne, r2)
        else no_exp
    | [] => no_exp
    end
  else no_exp.

(** The binary64 value nearest to [+/- m * 10^k] (ties to even), as a
    correctly rounding [strtod] returns it. *)
Definition decimal_to_double (neg : bool) (m : N) (k : Z) : spec_float :=
  match m with
  | N0 => S754_zero neg
  | Npos p =>
      match k with
      | Zneg q =>
          SFdiv prec emax (S754_finite neg p 0)
                          (S754_finite false (Pos.pow 10 q) 0)
      | Zpos q => binary_round prec emax neg (p * Pos.pow 10 q) 0
      | Z0 => binary_round prec emax neg p 0
      end
  end.

Definition DBL_MAX : float := 0x1.fffffffffffffp+1023%float.

(** Stage 3: the value stored in the operand and whether the conversion
    succeeded.  [strtod] must consume the whole accumulated text: there must
    be a digit in the significand, and an exponent letter must be followed by
    a digit. *)
Definition convert (f : field) : float * bool :=
  if (f_digits f =? 0)%nat || (f_exp_seen f && (f_exp_digits f =? 0)%nat)
  then (0%float, false)
  else
    let e := if f_exp_neg f then (- Z.of_N (f_exp f))%Z else Z.of_N (f_exp f) in
    match decimal_to_double (f_neg f) (f_mant f) (e - Z.of_nat (f_frac f)) with
    | S754_infinity true => ((- DBL_MAX)%float, false)
    | S754_infinity false => (DBL_MAX, false)
    | v => (SF2Prim v, true)
    end.

Definition is_nil {A} (l : list A) : bool :=
  match l with [] => true | _ => false end.

(** [stream >> value] for a [double&] operand holding [value]. *)
Definition extract (s : istream) (value : float) : istream * float :=
  if good s then
    match skipws (unread s) with
    | [] => (mk_istream [] true true, value)
    | c :: rest =>
        let '(f, rest') := scan_field (c :: rest) in
        let '(x, ok) := convert f in
        (mk_istream rest' (is_nil rest') (negb ok), x)
    end
  else (mk_istream (unread s) (eofbit s) true, value).

End IStream.

(** ** Single precision: [gr_complex] is [std::complex<float>]

    A binary32 value is a [spec_float] for precision 24 and [emax] 128, with
    the correctly rounded operations of that format. *)

Module Float32.

Definition float32 := spec_float.
Definition valid (x : float32) : bool := SpecFloat.valid_binary 24 128 x.
Definition mul : float32 -> float32 -> float32 := SFmul 24 128.
Definition add : float32 -> float32 -> float32 := SFadd 24 128.
Definition sub : float32 -> float32 -> float32 := SFsub 24 128.
Definition eqb : float32 -> float32 -> bool := SFeqb.

Definition one : float32 := S754_finite false 8388608 (-23).
Definition zero : float32 := S754_zero false.
Definition neg_zero : float32 := S754_zero true.

Definition is_finite (x : float32) : bool :=
  match x with
  | S754_zero _ | S754_finite _ _ _ => true
  | S754_infinity _ | S754_nan => false
  end.

Record gr_complex := mk_complex { real : float32; imag : float32 }.

(** [operator==] of [std::complex]: both parts compare equal. *)
Definition complex_eqb (a b : gr_complex) : bool :=
  eqb (real a) (real b) && eqb (imag a) (imag b).

(** [gr::fast_cc_multiply] of gnuradio/math.h (GNU Radio, not this
    repository):
    [o_r = cc1.real() * cc2.real() - cc1.imag() * cc2.imag()],
    [o_i = cc1.real() * cc2.imag() + cc1.imag() * cc2.real()]. *)
Definition fast_cc_multiply (cc1 cc2 : gr_complex) : gr_complex :=
  mk_complex (sub (mul (real cc1) (real cc2)) (mul (imag cc1) (imag cc2)))
             (add (mul (real cc1) (imag cc2)) (mul (imag cc1) (real cc2))).

End Float32.

(** ** Polymorphic values and stream tags (GNU Radio's [pmt] and [tag_t])

    Only what [work] touches: [pmt::is_tuple], [pmt::tuple_ref],
    [pmt::to_uint64] and [pmt::to_double], which throw on a value of the wrong
    kind or an index out of range. *)

Module Pmt.

Inductive pmt_t : Type :=
| pmt_symbol (name : string)
| pmt_integer (n : Z)       (* a C [long] *)
| pmt_uint64 (n : Z)
| pmt_real (x : float)
| pmt_tuple (items : list pmt_t).

Definition is_tuple (v : pmt_t) : bool :=
  match v with pmt_tuple _ => true | _ => false end.

Definition tuple_ref (v : pmt_t) (k : nat) : outcome pmt_t :=
  match v with
  | pmt_tuple items =>
      match nth_error items k with
      | Some x => Returns x
      | None => Throws "pmt_tuple_ref"
      end
  | _ => Throws "pmt_tuple_ref"
  end.

Definition to_uint64 (v : pmt_t) : outcome Z :=
  match v with
  | pmt_uint64 n => Returns n
  | pmt_integer n => if (0 <=? n)%Z then Returns n else Throws "pmt_to_uint64"
  | _ => Throws "pmt_to_uint64"
  end.

Definition to_double (v : pmt_t) : outcome float :=
  match v with
  | pmt_real x => Returns x
  | pmt_integer n =>
      Returns (Double.Z2double n)
  | pmt_uint64 n => Returns (Double.Z2double n)
  | _ => Throws "pmt_to_double"
  end.

Record tag_t := mk_tag {
  offset : Z;        (* absolute item index, [uint64_t] *)
  key : string;      (* the key symbol *)
  value : pmt_t
}.

(** [get_tags_in_window(v, which_input, rel_start, rel_end, key)]: the tags of
    the input whose absolute offset lies in
    [[nitems_read + rel_start, nitems_read + rel_end)] and whose key is [key],
    in the order the runtime holds them. *)
Definition get_tags_in_window (stream_tags : list tag_t) (nitems_read : Z)
    (rel_start rel_end : Z) (k : string) : list tag_t :=
  filter (fun t => (nitems_read + rel_start <=? offset t)%Z
                   && (offset t <? nitems_read + rel_end)%Z
                   && String.eqb (key t) k) stream_tags.

End Pmt.

(** ** The block *)

Module Doppler.
Import Double IStream Float32 Pmt.
Local Open Scope float_scope.

(** The data members of [doppler_correction_impl] that the source file uses
    (their declarations are in the header): the phase accumulator, the sample
    rate, the table cursor, the time anchor [(d_t0, d_sample_t0)] and the two
    table vectors. *)
Record doppler_correction_impl := mk_impl {
  d_phase : float;
  d_samp_rate : float;
  d_current_index : nat;
  d_t0 : float;
  d_sample_t0 : Z;
  times : list float;
  freqs_rad_per_sample : list float
}.

Definition format_error : string := "format error in Doppler file".

(** The [while (!input_file.eof())] loop of [read_doppler_file] (lines
    51-58).  [time] and [frequency] are the two locals; every turn pushes
    their current values, whether the extractions succeeded or not.  Each turn
    that leaves the stream good has consumed input, so [fuel] beyond the
    length of the input is never used up ([read_loop_terminates]). *)
Fixpoint read_loop (fuel : nat) (input_file : istream) (time frequency : float)
    (samp_rate : float) (ts fs : list float)
    : outcome (list float * list float) :=
  match fuel with
  | O => Diverges
  | S fuel' =>
      if eof input_file then Returns (ts, fs)
      else if negb (good input_file) then Throws format_error
      else
        let '(s1, time') := extract input_file time in
        let '(s2, frequency') := extract s1 frequency in
        read_loop fuel' s2 time' frequency' samp_rate
          (ts ++ [time'])
          (fs ++ [2.0 * GR_M_PI * frequency' / samp_rate])
  end.

Definition read_fuel (s : istream) : nat := length (unread s) + 2.

(** [read_doppler_file(filename)].  [contents] is what the file system holds
    under [filename] ([None]: no such file); [time0] and [frequency0] are the
    indeterminate initial values of the uninitialised locals [time] and
    [frequency]. *)
Definition read_doppler_file (self : doppler_correction_impl)
    (contents : option string) (time0 frequency0 : float)
    : outcome doppler_correction_impl :=
  let input_file := open contents in
  match read_loop (read_fuel input_file) input_file time0 frequency0
          (d_samp_rate self) (times self) (freqs_rad_per_sample self) with
  | Returns (ts, fs) =>
      Returns (mk_impl (d_phase self) (d_samp_rate self) (d_current_index self)
                 (d_t0 self) (d_sample_t0 self) ts fs)
  | Throws w => Throws w
  | Undefined => Undefined
  | Diverges => Diverges
  end.

(** The constructor (lines 27-41), reached through [doppler_correction::make]:
    the member initialisers, then [read_doppler_file]. *)
Definition make (contents : option string) (samp_rate t0 : float)
    (time0 frequency0 : float) : outcome doppler_correction_impl :=
  read_doppler_file (mk_impl 0 samp_rate 0 t0 0 [] []) contents time0 frequency0.

Definition rx_time_key : string := "rx_time".

(** Lines 70-75: one tag of [d_tags]. *)
Definition apply_tag (self : doppler_correction_impl) (tag : tag_t)
    : outcome doppler_correction_impl :=
  if is_tuple (value tag) then
    match tuple_ref (value tag) 0 with
    | Returns v0 =>
        match to_uint64 v0 with
        | Returns secs =>
            match tuple_ref (value tag) 1 with
            | Returns v1 =>
                match to_double v1 with
                | Returns frac =>
                    Returns (mk_impl (d_phase self) (d_samp_rate self)
                               (d_current_index self)
                               (Z2double secs + frac) (offset tag)
                               (times self) (freqs_rad_per_sample self))
                | Throws w => Throws w
                | Undefined => Undefined
                | Diverges => Diverges
                end
            | Throws w => Throws w
            | Undefined => Undefined
            | Diverges => Diverges
            end
        | Throws w => Throws w
        | Undefined => Undefined
        | Diverges => Diverges
        end
    | Throws w => Throws w
    | Undefined => Undefined
    | Diverges => Diverges
    end
  else Returns self.

(** Lines 69-76: [for (auto tag : d_tags)]. *)
Fixpoint apply_tags (self : doppler_correction_impl) (d_tags : list tag_t)
    : outcome doppler_correction_impl :=
  match d_tags with
  | [] => Returns self
  | tag :: rest =>
      match apply_tag self tag with
      | Returns self' => apply_tags self' rest
      | other => other
      end
  end.

Definition two64 : Z := 2 ^ 64.

(** Line 79: [d_t0 + (nitems_written(0) - d_sample_t0 + j) / d_samp_rate].
    The parenthesis is unsigned 64-bit arithmetic ([nitems_written] returns
    [uint64_t], and [j] is converted to it); its value is converted to
    [double] for the division. *)
Definition sample_time (t0 : float) (sample_t0 : Z) (samp_rate : float)
    (nitems_written : Z) (j : Z) : float :=
  t0 + Z2double ((nitems_written - sample_t0 + j) mod two64) / samp_rate.

(** What one turn of the sample loop computes. *)
Record sample := mk_sample {
  s_time : float;        (* [time], line 79 *)
  s_freq : float;        (* [freq], lines 85-96 *)
  s_phase : float;       (* [d_phase] after [phase_wrap()] *)
  s_out : gr_complex     (* [out[j]] *)
}.

Section Work.

(** [phase_wrap()] is declared in the header, which is not among the sources,
    and [gr_expj] is GNU Radio's; both are parameters here.  [gr_expj] stands
    for the call [gr_expj(-d_phase)] with the conversion of its [double]
    argument to [float]. *)
Variable phase_wrap : float -> float.
Variable gr_expj : float -> gr_complex.

(** Lines 78-101: the sample loop from index [j] on, over the remaining
    input; it threads [d_phase] and [d_current_index]. *)
Fixpoint sample_loop (self : doppler_correction_impl) (nitems_written : Z)
    (j : Z) (input : list gr_complex) (phase : float) (index : nat)
    : outcome (list sample * float * nat) :=
  match input with
  | [] => Returns ([], phase, index)
  | x :: rest =>
      let time := sample_time (d_t0 self) (d_sample_t0 self) (d_samp_rate self)
                    nitems_written j in
      match Table.query_frequency (times self) (freqs_rad_per_sample self)
              index time with
      | None => Undefined
      | Some (freq, index') =>
          let phase' := phase_wrap (phase + freq) in
          let nco := gr_expj (- phase') in
          match sample_loop self nitems_written (j + 1) rest phase' index' with
          | Returns (ss, p, i) =>
              Returns (mk_sample time freq phase' (fast_cc_multiply x nco) :: ss,
                       p, i)
          | other => other
          end
      end
  end.

(** [work(noutput_items, input_items, output_items)]: [input] holds the
    [noutput_items] samples of [input_items[0]]; [stream_tags] are the tags
    on the input and [nitems_read], [nitems_written] the counters of the
    runtime.  The result is the block afterwards and, per sample, what the
    loop computed ([out] is the list of the [s_out]). *)
Definition work (self : doppler_correction_impl) (stream_tags : list tag_t)
    (nitems_read nitems_written : Z) (input : list gr_complex)
    : outcome (doppler_correction_impl * list sample) :=
  let d_tags := get_tags_in_window stream_tags nitems_read 0
                  (Z.of_nat (length input)) rx_time_key in
  match apply_tags self d_tags with
  | Returns self1 =>
      match sample_loop self1 nitems_written 0 input (d_phase self1)
              (d_current_index self1) with
      | Returns (ss, phase, index) =>
          Returns (mk_impl phase (d_samp_rate self1) index (d_t0 self1)
                     (d_sample_t0 self1) (times self1)
                     (freqs_rad_per_sample self1), ss)
      | Throws w => Throws w
      | Undefined => Undefined
      | Diverges => Diverges
      end
  | Throws w => Throws w
  | Undefined => Undefined
  | Diverges => Diverges
  end.

End Work.

End Doppler.

(** ** The loader: termination and shape of the table *)

Module Loader.
Import Double IStream Doppler.

Fixpoint all_space (s : list ascii) : bool :=
  match s with
  | c :: rest => isspace c && all_space rest
  | [] => true
  end.

(** The body of the loop (lines 55-57) as a step on the loop state: the
    stream, the two locals and the two vectors. *)
Record loop_state := mk_state {
  input_file : istream;
  time : float;
  frequency : float;
  ts : list float;
  fs : list float
}.

Definition angular (samp_rate frequency : float) : float :=
  (2.0 * GR_M_PI * frequency / samp_rate)%float.

Definition body (samp_rate : float) (st : loop_state) : loop_state :=
  let '(s1, time') := extract (input_file st) (time st) in
  let '(s2, frequency') := extract s1 (frequency st) in
  mk_state s2 time' frequency' (ts st ++ [time'])
    (fs st ++ [angular samp_rate frequency']).

Definition initial (contents : option string) (time0 frequency0 : float)
    : loop_state :=
  mk_state (open contents) time0 frequency0 [] [].

Lemma skipws_length s : length (skipws s) <= length s.
Proof.
  induction s as [|c s IH]; simpl; [lia|].
  destruct (isspace c); simpl; lia.
Qed.

Lemma skipws_all_space s : all_space s = true -> skipws s = [].
Proof.
  induction s as [|c s IH]; simpl; [reflexivity|].
  destruct (isspace c); simpl; [exact IH|discriminate].
Qed.

Lemma scan_digits_length s : forall acc n m n' r,
  scan_digits s acc n = (m, n', r) -> length r + n' = length s + n.
Proof.
  induction s as [|c s IH]; simpl; intros acc n m n' r H.
  - injection H as <- <- <-. reflexivity.
  - destruct (digit_of c).
    + apply IH in H. lia.
    + injection H as <- <- <-. simpl. lia.
Qed.

Lemma scan_sign_length s b r : scan_sign s = (b, r) -> length r <= length s.
Proof.
  unfold scan_sign. intros H.
  destruct s as [|c s]; [injection H as <- <-; simpl; lia|].
  destruct c as [[] [] [] [] [] [] [] []];
    injection H as <- <-; simpl; lia.
Qed.

Lemma scan_fraction_length s ip m nf r :
  scan_fraction s ip = (m, nf, r) -> length r + nf <= length s.
Proof.
  unfold scan_fraction. intros H.
  destruct s as [|c s]; [injection H as <- <- <-; simpl; lia|].
  destruct (Ascii.eqb_spec c "."%char) as [->|Hc].
  - apply scan_digits_length in H. simpl. lia.
  - assert (H' : (ip, 0%nat, c :: s) = (m, nf, r)).
    { rewrite <- H. destruct c as [[] [] [] [] [] [] [] []]; try reflexivity.
      now elim Hc. }
    injection H' as <- <- <-. simpl. lia.
Qed.

Lemma scan_field_length s f r :
  scan_field s = (f, r) -> length r + f_digits f <= length s.
Proof.
  unfold scan_field.
  destruct (scan_sign s) as [neg s1] eqn:E1.
  destruct (scan_digits s1 0%N 0%nat) as [[ip ni] s2] eqn:E2.
  apply scan_sign_length in E1. apply scan_digits_length in E2.
  destruct (scan_fraction s2 ip) as [[m nf] s3] eqn:E.
  apply scan_fraction_length in E.
  destruct (0 <? ni + nf)%nat.
  - destruct s3 as [|c r0]; [intros [= <- <-]; simpl in *; lia|].
    destruct ((c =? "e")%char || (c =? "E")%char).
    + destruct (scan_sign r0) as [eneg r1] eqn:E4.
      destruct (scan_digits r1 0%N 0%nat) as [[ev ne] r2] eqn:E5.
      apply scan_sign_length in E4. apply scan_digits_length in E5.
      intros [= <- <-]. simpl in *. lia.
    + intros [= <- <-]. simpl in *. lia.
  - intros [= <- <-]. simpl in *. lia.
Qed.

Lemma convert_ok f x : convert f = (x, true) -> f_digits f <> 0.
Proof.
  unfold convert. destruct (f_digits f =? 0)%nat eqn:E; simpl.
  - discriminate.
  - intros _. now apply Nat.eqb_neq in E.
Qed.

Lemma good_flags s : good s = true -> eofbit s = false /\ failbit s = false.
Proof.
  unfold good. intros H. apply andb_true_iff in H as [H1 H2].
  split; [now destruct (eofbit s)|now destruct (failbit s)].
Qed.

(** An extraction never gives input back, and one that leaves the stream good
    has consumed at least one character. *)
Lemma extract_length s v s' v' :
  extract s v = (s', v') ->
  length (unread s') <= length (unread s) /\
  (good s' = true -> length (unread s') < length (unread s)).
Proof.
  unfold extract. destruct (good s) eqn:G.
  - pose proof (skipws_length (unread s)) as Hw.
    destruct (skipws (unread s)) as [|c rest] eqn:Ew.
    + intros [= <- <-]. simpl. split; [lia|discriminate].
    + destruct (scan_field (c :: rest)) as [f rest'] eqn:Ef.
      destruct (convert f) as [x ok] eqn:Ec.
      apply scan_field_length in Ef.
      intros [= <- <-]. simpl. split; [lia|].
      unfold good; simpl. intros H. apply andb_true_iff in H as [_ H].
      destruct ok; [|discriminate]. apply convert_ok in Ec. lia.
  - intros [= <- <-]. simpl. split; [lia|].
    unfold good; simpl. rewrite andb_false_r. discriminate.
Qed.

(** A stream that is not good stays so, and keeps its [eofbit]. *)
Lemma extract_not_good s v :
  good s = false -> extract s v = (mk_istream (unread s) (eofbit s) true, v).
Proof. unfold extract. now intros ->. Qed.

Lemma extract_good_before s v s' v' :
  extract s v = (s', v') -> good s' = true -> good s = true.
Proof.
  destruct (good s) eqn:G; [reflexivity|].
  rewrite (extract_not_good _ v G). intros [= <- <-].
  unfold good; simpl. now rewrite andb_false_r.
Qed.

Lemma body_length sr st :
  length (unread (input_file (body sr st))) <= length (unread (input_file st)) /\
  (good (input_file (body sr st)) = true ->
   good (input_file st) = true /\
   length (unread (input_file (body sr st))) < length (unread (input_file st))).
Proof.
  unfold body.
  destruct (extract (input_file st) (time st)) as [s1 t1] eqn:E1.
  destruct (extract s1 (frequency st)) as [s2 f2] eqn:E2. simpl.
  pose proof (extract_length _ _ _ _ E1) as [L1 _].
  pose proof (extract_length _ _ _ _ E2) as [L2 S2].
  split; [lia|]. intros G. split.
  - eapply extract_good_before; [exact E1|].
    eapply extract_good_before; [exact E2|exact G].
  - specialize (S2 G). lia.
Qed.

Lemma read_loop_body fuel st sr :
  eof (input_file st) = false -> good (input_file st) = true ->
  read_loop (S fuel) (input_file st) (time st) (frequency st) sr (ts st) (fs st)
  = let st' := body sr st in
    read_loop fuel (input_file st') (time st') (frequency st') sr (ts st') (fs st').
Proof.
  intros E G. simpl. rewrite E, G. simpl. unfold body.
  destruct (extract (input_file st) (time st)) as [s1 t1].
  destruct (extract s1 (frequency st)) as [s2 f2]. reflexivity.
Qed.

(** The loop bound is never reached. *)
Lemma read_loop_terminates fuel : forall st sr,
  (if good (input_file st) then length (unread (input_file st)) + 2 <= fuel
   else 1 <= fuel) ->
  read_loop fuel (input_file st) (time st) (frequency st) sr (ts st) (fs st)
  <> Diverges.
Proof.
  induction fuel as [|k IH]; intros st sr Hf.
  - destruct (good (input_file st)); lia.
  - destruct (good (input_file st)) eqn:G.
    + pose proof (good_flags _ G) as [E _].
      rewrite read_loop_body by assumption. cbv zeta.
      apply IH. pose proof (body_length sr st) as [L1 L2].
      destruct (good (input_file (body sr st))); [|lia].
      destruct L2 as [_ L2]; [reflexivity|lia].
    + simpl. unfold eof. destruct (eofbit (input_file st)); [discriminate|].
      rewrite G. discriminate.
Qed.

(** Every turn pushes one entry on each vector, and a loop entered with
    [eofbit] clear runs at least one turn before it can return. *)
Lemma read_loop_lengths fuel : forall s t f sr ts0 fs0 ts1 fs1,
  read_loop fuel s t f sr ts0 fs0 = Returns (ts1, fs1) ->
  exists n, length ts1 = length ts0 + n /\ length fs1 = length fs0 + n /\
            (eof s = false -> 1 <= n).
Proof.
  induction fuel as [|k IH]; intros s t f sr ts0 fs0 ts1 fs1; simpl;
    [discriminate|].
  destruct (eof s) eqn:E.
  - intros [= <- <-]. exists 0. repeat split; try lia; congruence.
  - destruct (good s); simpl; [|discriminate].
    destruct (extract s t) as [s1 t1]. destruct (extract s1 f) as [s2 f2].
    intros H. apply IH in H as (n & H1 & H2 & _).
    rewrite length_app in H1, H2. simpl in H1, H2.
    exists (S n). repeat split; lia.
Qed.

(** Turns of the loop body, without the tests of the loop head. *)
Fixpoint iterate (n : nat) (sr : float) (st : loop_state) : loop_state :=
  match n with
  | O => st
  | S k => iterate k sr (body sr st)
  end.

Lemma iterate_good n sr : forall st,
  good (input_file (iterate n sr st)) = true ->
  good (input_file st) = true /\
  (length (unread (input_file (iterate n sr st))) + n
     <= length (unread (input_file st))).
Proof.
  induction n as [|k IH]; intros st G; simpl in *; [split; [exact G|lia]|].
  destruct (IH _ G) as [G1 L1].
  destruct (body_length sr st) as [_ L2]. destruct (L2 G1) as [G0 L0].
  split; [exact G0|lia].
Qed.

(** While the stream stays good the loop runs its body. *)
Lemma read_loop_iterate n sr : forall fuel st,
  good (input_file (iterate n sr st)) = true ->
  read_loop (n + fuel) (input_file st) (time st) (frequency st) sr (ts st) (fs st)
  = let st' := iterate n sr st in
    read_loop fuel (input_file st') (time st') (frequency st') sr (ts st') (fs st').
Proof.
  induction n as [|k IH]; intros fuel st G; [reflexivity|].
  simpl in G. destruct (iterate_good k sr _ G) as [G1 _].
  destruct (body_length sr st) as [_ L2]. destruct (L2 G1) as [G0 _].
  destruct (good_flags _ G0) as [E0 _].
  change (S k + fuel) with (S (k + fuel)).
  rewrite read_loop_body by assumption. cbv zeta.
  rewrite IH by exact G. reflexivity.
Qed.

(** After every turn the last entry of each vector is what the locals hold. *)
Lemma iterate_last n sr : forall st, n <> 0 ->
  last (ts (iterate n sr st)) 0%float = time (iterate n sr st) /\
  last (fs (iterate n sr st)) 0%float
    = angular sr (frequency (iterate n sr st)).
Proof.
  induction n as [|k IH]; intros st Hn; [now elim Hn|].
  simpl. destruct k as [|k].
  - simpl. unfold body.
    destruct (extract (input_file st) (time st)) as [s1 t1].
    destruct (extract s1 (frequency st)) as [s2 f2]. simpl.
    now rewrite !last_last.
  - apply IH. discriminate.
Qed.

(** With only white space left, the two extractions fail in the sentry: the
    locals keep their values, which are pushed, and the loop ends on [eof]. *)
Lemma read_loop_trailing_space fuel st sr :
  good (input_file st) = true ->
  all_space (unread (input_file st)) = true ->
  read_loop (S (S fuel)) (input_file st) (time st) (frequency st) sr
    (ts st) (fs st)
  = Returns (ts st ++ [time st], fs st ++ [angular sr (frequency st)]).
Proof.
  intros G W. destruct (good_flags _ G) as [E _].
  rewrite read_loop_body by assumption. cbv zeta. unfold body.
  assert (X : extract (input_file st) (time st)
              = (mk_istream [] true true, time st)).
  { unfold extract. rewrite G, (skipws_all_space _ W). reflexivity. }
  rewrite X. rewrite extract_not_good by reflexivity. reflexivity.
Qed.

(** The outcome of the loop for two sample rates: the same exception, or the
    same [times] vector. *)
Definition same_shape (r r' : outcome (list float * list float)) : Prop :=
  match r, r' with
  | Returns (ts1, _), Returns (ts2, _) => ts1 = ts2
  | Throws w, Throws w' => w = w'
  | Diverges, Diverges => True
  | _, _ => False
  end.

Lemma read_loop_same_shape fuel sr sr' : forall s t f ts0 fs0 fs0',
  same_shape (read_loop fuel s t f sr ts0 fs0)
             (read_loop fuel s t f sr' ts0 fs0').
Proof.
  induction fuel as [|k IH]; intros s t f ts0 fs0 fs0'; simpl; [exact I|].
  destruct (eof s); [reflexivity|].
  destruct (good s); simpl; [|reflexivity].
  destruct (extract s t) as [s1 t1]. destruct (extract s1 f) as [s2 f2].
  apply IH.
Qed.

(** The loop ends in a return or in the format error. *)
Lemma read_loop_outcomes fuel : forall s t f sr ts0 fs0,
  match read_loop fuel s t f sr ts0 fs0 with
  | Throws w => w = format_error
  | Undefined => False
  | _ => True
  end.
Proof.
  induction fuel as [|k IH]; intros s t f sr ts0 fs0; simpl; [exact I|].
  destruct (eof s); [exact I|].
  destruct (good s); simpl; [|reflexivity].
  destruct (extract s t) as [s1 t1]. destruct (extract s1 f) as [s2 f2].
  apply IH.
Qed.

End Loader.

(** * Properties of the block *)

Import IStream Doppler Loader.

Definition newline : string := String "010"%char EmptyString.

(** ** Loading the table *)

Lemma make_unfold contents sr t0 time0 frequency0 :
  make contents sr t0 time0 frequency0 =
  match read_loop (read_fuel (open contents)) (open contents) time0 frequency0
          sr [] [] with
  | Returns (ts1, fs1) => Returns (mk_impl 0 sr 0 t0 0 ts1 fs1)
  | Throws w => Throws w
  | Undefined => Undefined
  | Diverges => Diverges
  end.
Proof. reflexivity. Qed.

(** The loader always comes back: it returns a table or throws. *)
Lemma make_total contents sr t0 time0 frequency0 :
  (exists self, make contents sr t0 time0 frequency0 = Returns self) \/
  make contents sr t0 time0 frequency0 = Throws format_error.
Proof.
  rewrite make_unfold.
  pose proof (read_loop_terminates (read_fuel (open contents))
                (initial contents time0 frequency0) sr) as T.
  simpl in T.
  assert (F : if good (open contents)
              then length (unread (open contents)) + 2
                   <= read_fuel (open contents)
              else 1 <= read_fuel (open contents)).
  { unfold read_fuel. destruct (good (open contents)); lia. }
  specialize (T F).
  pose proof (read_loop_outcomes (read_fuel (open contents)) (open contents)
                time0 frequency0 sr [] []) as O.
  destruct (read_loop _ _ _ _ _ _ _) as [[ts1 fs1]|w| |].
  - left. eexists. reflexivity.
  - right. now rewrite O.
  - contradiction.
  - now elim T.
Qed.

(** What a returned block looks like: vectors of equal, non-empty length. *)
Lemma make_lengths contents sr t0 time0 frequency0 self :
  make contents sr t0 time0 frequency0 = Returns self ->
  length (times self) = length (freqs_rad_per_sample self)
  /\ 1 <= length (times self).
Proof.
  rewrite make_unfold.
  destruct (read_loop _ _ _ _ _ _ _) as [[ts1 fs1]| | |] eqn:R;
    try discriminate.
  intros [= <-]. simpl.
  apply read_loop_lengths in R as (n & H1 & H2 & H3).
  simpl in H1, H2. split; [lia|].
  assert (1 <= n) by (apply H3; now destruct contents). lia.
Qed.

(** A blank source: both extractions of the first turn fail in the sentry,
    the locals are pushed as they are, and the loop ends on [eof]. *)
Lemma blank_source_table src sr t0 time0 frequency0 :
  all_space (list_ascii_of_string src) = true ->
  make (Some src) sr t0 time0 frequency0
  = Returns (mk_impl 0 sr 0 t0 0 [time0] [angular sr frequency0]).
Proof.
  intros W. rewrite make_unfold.
  unfold read_fuel. rewrite Nat.add_comm.
  change (read_loop (2 + ?n) (open (Some src)) time0 frequency0 sr [] [])
    with (let st := initial (Some src) time0 frequency0 in
          read_loop (S (S n)) (input_file st) (time st) (frequency st) sr
            (ts st) (fs st)).
  cbv zeta. rewrite read_loop_trailing_space; [reflexivity|reflexivity|exact W].
Qed.

(** The only exception of the loader is the format error. *)
Lemma make_throws contents sr t0 time0 frequency0 w :
  make contents sr t0 time0 frequency0 = Throws w -> w = format_error.
Proof.
  destruct (make_total contents sr t0 time0 frequency0) as [[e E]|E];
    rewrite E; [discriminate|now intros [= <-]].
Qed.

(** C4 (as the code has it).  A source with no record at all, empty or white
    space only, does not make construction fail: a block is returned.  The
    only exception construction can end in is the format error; there is no
    empty-table error.  The postcondition of a successful load stands:
    [times] and [freqs_rad_per_sample] have equal, non-empty length. *)
Theorem load_of_empty_source_and_postcondition :
  (forall src sr t0 time0 frequency0,
      all_space (list_ascii_of_string src) = true ->
      returned (make (Some src) sr t0 time0 frequency0) = true)
  /\
  (forall contents sr t0 time0 frequency0 w,
      make contents sr t0 time0 frequency0 = Throws w -> w = format_error)
  /\
  (forall contents sr t0 time0 frequency0 self,
      make contents sr t0 time0 frequency0 = Returns self ->
      length (times self) = length (freqs_rad_per_sample self)
      /\ 1 <= length (times self)).
Proof.
  split; [|split].
  - intros src sr t0 time0 frequency0 W.
    now rewrite (blank_source_table src sr t0 time0 frequency0 W).
  - apply make_throws.
  - apply make_lengths.
Qed.

(** The empty file: construction returns a block, here with the locals
    holding 0. *)
Lemma empty_file_is_accepted :
  make (Some ""%string) 1000 0 0 0
  = Returns (mk_impl 0 1000 0 0 0 [0%float] [0%float]).
Proof. vm_compute. reflexivity. Qed.

Lemma load_of_empty_source_and_postcondition_witness :
  returned (make (Some newline) 1000 0 5 7) = true
  /\ format_error = format_error
  /\ (length [0%float; 1%float] = length [0%float; angular 1000 10]
      /\ 1 <= length [0%float; 1%float]).
Proof.
  destruct load_of_empty_source_and_postcondition as (Blank & Thrown & Post).
  split; [|split].
  - apply Blank. reflexivity.
  - apply (Thrown (Some "abc def"%string) 1000%float 0%float 0%float 0%float).
    vm_compute. reflexivity.
  - apply (Post (Some "0 0 1 10"%string) 1000%float 0%float 0%float 0%float
             (mk_impl 0 1000 0 0 0 [0%float; 1%float]
                [0%float; angular 1000 10])).
    vm_compute. reflexivity.
Defined.

(** C5 (as the code has it).  The constructor does not look at the sample
    rate: for any two sample rates construction ends the same way, with a
    block holding the same [times] or with the format error, the only
    exception there is; a block that is returned stores the sample rate it
    was given, positive or not. *)
Theorem construction_ignores_sample_rate :
  forall contents sr sr' t0 time0 frequency0,
    match make contents sr t0 time0 frequency0,
          make contents sr' t0 time0 frequency0 with
    | Returns self, Returns self' =>
        times self = times self' /\
        d_samp_rate self = sr /\ d_samp_rate self' = sr'
    | Throws w, Throws w' => w = format_error /\ w' = format_error
    | _, _ => False
    end.
Proof.
  intros contents sr sr' t0 time0 frequency0.
  destruct (make_total contents sr t0 time0 frequency0) as [[e E]|E];
  destruct (make_total contents sr' t0 time0 frequency0) as [[e' E']|E'];
  rewrite E, E'; try (split; reflexivity);
  rewrite make_unfold in E, E';
  pose proof (read_loop_same_shape (read_fuel (open contents)) sr sr'
                (open contents) time0 frequency0 [] [] []) as S;
  destruct (read_loop _ _ _ _ sr _ _) as [[ts1 fs1]| | |];
  destruct (read_loop _ _ _ _ sr' _ _) as [[ts2 fs2]| | |];
  simpl in S; try discriminate; try contradiction.
  injection E as <-. injection E' as <-. simpl. auto.
Qed.

(** Sample rates [0] and [-1000] are accepted. *)
Lemma nonpositive_sample_rate_is_accepted :
  returned (make (Some "0 0 1 10"%string) 0 0 0 0) = true /\
  make (Some "0 0 1 10"%string) (-1000) 0 0 0
  = Returns (mk_impl 0 (-1000) 0 0 0 [0%float; 1%float]
               [angular (-1000) 0; angular (-1000) 10]).
Proof. split; vm_compute; reflexivity. Qed.

(** C6 at the failing input: a last field that is no number, here a lone
    sign, ends the input while it is being read; [eofbit] is set together
    with [failbit], the loop leaves on [eof()] and the test of [good()] is
    never reached.  The loader returns a table whose second entry pairs the
    stored [0] with the previous frequency. *)
Theorem malformed_last_field_is_accepted :
  make (Some "1 2 -"%string) 1000 0 0 0
  = Returns (mk_impl 0 1000 0 0 0 [1%float; 0%float]
               [angular 1000 2; angular 1000 2]).
Proof. vm_compute. reflexivity. Qed.

(** The sibling path: the same malformed field followed by more input makes
    the loader throw, as does the record "abc def". *)
Lemma malformed_field_before_more_input_throws :
  make (Some ("1 2 -" ++ newline)%string) 1000 0 0 0 = Throws format_error /\
  make (Some "abc def"%string) 1000 0 0 0 = Throws format_error.
Proof. split; vm_compute; reflexivity. Qed.

(** In general: when an extraction of a turn fails before the end of the
    input, the next test of [good()] throws. *)
Lemma failed_extraction_before_eof_throws fuel st sr :
  good (input_file st) = true ->
  eofbit (input_file (body sr st)) = false ->
  failbit (input_file (body sr st)) = true ->
  read_loop (S (S fuel)) (input_file st) (time st) (frequency st) sr
    (ts st) (fs st) = Throws format_error.
Proof.
  intros G E F. destruct (good_flags _ G) as [E0 _].
  rewrite read_loop_body by assumption. cbv zeta. simpl.
  unfold eof, good. rewrite E, F. reflexivity.
Qed.

(** C10 (as the code has it).  When, after [n] complete records, only white
    space is left (or nothing at all, for [n = 0]), the loader returns and
    has pushed one entry beyond the complete records.  That entry holds the
    values left in the locals [time] and [frequency]: a failed sentry stores
    nothing in its operand.  After a record it therefore repeats the last
    record; for an empty or blank source it is made of the uninitialised
    locals.  The table returned is not empty. *)
Theorem trailing_whitespace_repeats_last_record :
  forall contents sr t0 time0 frequency0 n st,
    iterate n sr (initial contents time0 frequency0) = st ->
    good (input_file st) = true ->
    all_space (unread (input_file st)) = true ->
    make contents sr t0 time0 frequency0
    = Returns (mk_impl 0 sr 0 t0 0 (ts st ++ [time st])
                 (fs st ++ [angular sr (frequency st)]))
    /\ (n = 0 -> ts st = [] /\ time st = time0 /\ frequency st = frequency0)
    /\ (n <> 0 -> last (ts st) 0%float = time st /\
                  last (fs st) 0%float = angular sr (frequency st)).
Proof.
  intros contents sr t0 time0 frequency0 n st <- G W.
  set (st0 := initial contents time0 frequency0) in *.
  split; [|split].
  - rewrite make_unfold.
    destruct (iterate_good n sr st0 G) as [G0 L].
    unfold read_fuel.
    replace (length (unread (open contents)) + 2)
      with (n + S (S (length (unread (open contents)) - n)))
      by (change (open contents) with (input_file st0); lia).
    change (read_loop ?k (open contents) time0 frequency0 sr [] [])
      with (read_loop k (input_file st0) (time st0) (frequency st0) sr
              (ts st0) (fs st0)).
    rewrite read_loop_iterate by exact G. cbv zeta.
    rewrite read_loop_trailing_space by assumption. reflexivity.
  - intros ->. repeat split.
  - intros Hn. now apply iterate_last.
Qed.

(** One record and a line end: the table has two entries, both [(1, f(2))]. *)
Lemma newline_after_record_duplicates_it :
  make (Some ("1 2" ++ newline)%string) 1000 0 0 0
  = Returns (mk_impl 0 1000 0 0 0 [1%float; 1%float]
               [angular 1000 2; angular 1000 2])
  /\ PrimFloat.eqb 1 0 = false
  /\ PrimFloat.eqb (angular 1000 2) 0 = false.
Proof. repeat split; vm_compute; reflexivity. Qed.

Lemma trailing_whitespace_repeats_last_record_witness :
  make (Some ("1 2" ++ newline)%string) 1000 0 0 0
  = Returns (mk_impl 0 1000 0 0 0 ([1%float] ++ [1%float])
               ([angular 1000 2] ++ [angular 1000 2])).
Proof.
  pose proof (trailing_whitespace_repeats_last_record
                (Some ("1 2" ++ newline)%string) 1000%float 0%float 0%float
                0%float 1 _ eq_refl) as H.
  apply H; vm_compute; reflexivity.
Defined.

(** ** The frequency lookup *)

Import Double Table.

(** C7.  Whatever the times of successive lookups are, and in particular
    when they are non-decreasing, the cursor positions they use never
    decrease; a single lookup never leaves the cursor below where it found
    it, also when the query time lies before [times[cursor]]. *)
Theorem cursor_never_moves_back :
  forall times queries i,
    nat_nondecreasing (i :: cursor_trace times i queries) = true /\
    (forall t, i <= advance times t i).
Proof.
  intros times queries i. split.
  - apply cursor_trace_monotone.
  - intros t. apply advance_ge.
Qed.

Lemma query_hold times freqs i t c ti fi :
  advance times t i = c ->
  nth_error times c = Some ti ->
  nth_error freqs c = Some fi ->
  ((t <? ti)%float || (c + 1 =? length times)) = true ->
  query_frequency times freqs i t = Some (fi, c).
Proof.
  intros <- Ht Hf Hc. unfold query_frequency. now rewrite Ht, Hc, Hf.
Qed.

(** C2.  In a non-empty table: with the cursor at the last index a lookup
    returns [freqs[last]], whatever the time; and when [times] is
    non-decreasing (the invariant the data model gives the table), a lookup
    before [times[0]] with the cursor at its initial position returns
    [freqs[0]] and leaves the cursor at 0, and a lookup after [times[last]]
    reaches the last index from any cursor and returns [freqs[last]]. *)
Theorem boundary_hold :
  forall times freqs last t0 f0 tl fl,
    length times = S last ->
    nth_error times 0 = Some t0 -> nth_error freqs 0 = Some f0 ->
    nth_error times last = Some tl -> nth_error freqs last = Some fl ->
    (forall t, query_frequency times freqs last t = Some (fl, last)) /\
    (nondecreasing times = true ->
     (forall t, (t <? t0)%float = true ->
        query_frequency times freqs 0 t = Some (f0, 0)) /\
     (forall t i, (tl <? t)%float = true -> i <= last ->
        query_frequency times freqs i t = Some (fl, last))).
Proof.
  intros times freqs last t0 f0 tl fl Hlen Ht0 Hf0 Htl Hfl.
  assert (Last : forall t c, c = last ->
            ((t <? tl)%float || (c + 1 =? length times)) = true).
  { intros t c ->. rewrite Hlen.
    replace (last + 1 =? S last) with true
      by (symmetry; apply Nat.eqb_eq; lia).
    apply orb_true_r. }
  split; [|intros Hs; split].
  - intros t.
    assert (A : advance times t last = last).
    { apply advance_stay. unfold advance_guard. rewrite Hlen.
      replace (last + 1 <? S last) with false
        by (symmetry; apply Nat.ltb_ge; lia).
      reflexivity. }
    apply (query_hold _ _ _ _ _ tl _ A); auto.
  - intros t Ht.
    assert (A : advance times t 0 = 0).
    { apply advance_stay. unfold advance_guard.
      destruct (nth_error times (0 + 1)) as [t1|] eqn:E1;
        [|now rewrite andb_false_r].
      rewrite (ltb_leb_false t t0 t1 Ht), andb_false_r; [reflexivity|].
      eapply nondecreasing_adjacent; eauto. }
    apply (query_hold _ _ _ _ _ t0 _ A); try assumption.
    now rewrite Ht.
  - intros t i Ht Hi.
    assert (A : advance times t i = last).
    { unfold advance.
      apply (advance_loop_to_last times t last tl Hs Hlen Htl (ltb_leb _ _ Ht));
        lia. }
    apply (query_hold _ _ _ _ _ tl _ A); auto.
Qed.

Lemma boundary_hold_witness :
  query_frequency [0; 1; 2]%float [10; 20; 30]%float 2 1.5%float
  = Some (30%float, 2) /\
  query_frequency [0; 1; 2]%float [10; 20; 30]%float 0 (-1)%float
  = Some (10%float, 0) /\
  query_frequency [0; 1; 2]%float [10; 20; 30]%float 0 5%float
  = Some (30%float, 2).
Proof.
  destruct (boundary_hold [0; 1; 2]%float [10; 20; 30]%float 2
              0%float 10%float 2%float 30%float
              eq_refl eq_refl eq_refl eq_refl eq_refl)
    as [Last Sorted].
  destruct (Sorted eq_refl) as [Before After].
  split; [apply Last|split; [apply Before|apply After; [|lia]]]; reflexivity.
Defined.

(** The value line 92-95 computes between two table entries. *)
Definition interpolate (t ti tn fi fn : float) : float :=
  let alpha := ((t - ti) / (tn - ti))%float in
  ((1.0 - alpha) * fi + alpha * fn)%float.

Lemma ltb_irrefl x : (x <? x)%float = false.
Proof.
  rewrite ltb_spec. unfold SFltb.
  destruct (Prim2SF x) as [s|s| |s m e]; try reflexivity; simpl.
  - now destruct s.
  - rewrite Z.compare_refl, Pos.compare_cont_refl. now destruct s.
Qed.

(** C1.  When, after the cursor has advanced to [c], the entry [c + 1] exists
    ([c] is not the last index) and [times[c] <= t], the lookup returns
    [(1 - alpha) * freqs[c] + alpha * freqs[c+1]] with
    [alpha = (t - times[c]) / (times[c+1] - times[c])], every operation in
    binary64.  In particular, for a table of two entries [(t0, f0)],
    [(t1, f1)] of finite numbers with [t0 < t1], the lookup at [t1] returns
    [f1] itself and the lookup at [t0] returns a value equal ([==]) to [f0]:
    there [alpha] is 0 and the sum is [1 * f0 + 0 * f1]. *)
Theorem interpolation_between_entries :
  (forall times freqs i t c tc tn fc fn,
      advance times t i = c ->
      nth_error times c = Some tc -> nth_error times (c + 1) = Some tn ->
      nth_error freqs c = Some fc -> nth_error freqs (c + 1) = Some fn ->
      (tc <=? t)%float = true ->
      query_frequency times freqs i t = Some (interpolate t tc tn fc fn, c))
  /\
  (forall t0 t1 f0 f1,
      (t0 <? t1)%float = true ->
      is_finite t0 = true -> is_finite f0 = true -> is_finite f1 = true ->
      query_frequency [t0; t1] [f0; f1] 0 t1 = Some (f1, 1) /\
      query_frequency [t0; t1] [f0; f1] 0 t0
        = Some (interpolate t0 t0 t1 f0 f1, 0) /\
      (interpolate t0 t0 t1 f0 f1 =? f0)%float = true).
Proof.
  split.
  - intros times freqs i t c tc tn fc fn <- Htc Htn Hfc Hfn Hle.
    unfold query_frequency. rewrite Htc, (leb_ltb_false _ _ Hle).
    assert (L : advance times t i + 1 < length times)
      by (apply nth_error_Some; congruence).
    replace (advance times t i + 1 =? length times) with false
      by (symmetry; apply Nat.eqb_neq; lia).
    simpl. now rewrite Htn, Hfc, Hfn.
  - intros t0 t1 f0 f1 Hlt Ft0 Ff0 Ff1.
    assert (A1 : advance [t0; t1] t1 0 = 1).
    { unfold advance, advance_loop, advance_guard. simpl.
      now rewrite (ltb_refl_r _ _ Hlt). }
    assert (A0 : advance [t0; t1] t0 0 = 0).
    { apply advance_stay. unfold advance_guard. simpl.
      apply (ltb_leb_false t0 t1 t1 Hlt). apply (ltb_refl_r _ _ Hlt). }
    repeat split.
    + unfold query_frequency. rewrite A1. simpl. now rewrite orb_true_r.
    + unfold query_frequency. rewrite A0. simpl. now rewrite ltb_irrefl.
    + unfold interpolate. cbv zeta.
      rewrite (sub_self _ Ft0).
      pose proof (sub_nonzero t1 t0 Hlt Ft0) as Hd.
      assert (Hz : is_zero_sf (Prim2SF (0 / (t1 - t0))%float) = true)
        by (apply zero_div_nonzero; [reflexivity|exact Hd]).
      rewrite (one_sub_zero _ Hz), mul_one_l.
      apply add_zero_eqb; [exact Ff0|]. now apply zero_mul_finite.
Qed.

Lemma interpolation_between_entries_witness :
  query_frequency [0; 1; 3]%float [10; 20; 40]%float 0 2%float
  = Some (interpolate 2 1 3 20 40, 1) /\
  (query_frequency [0; 1]%float [10; 20]%float 0 1%float = Some (20%float, 1) /\
   query_frequency [0; 1]%float [10; 20]%float 0 0%float
     = Some (interpolate 0 0 1 10 20, 0) /\
   (interpolate 0 0 1 10 20 =? 10)%float = true).
Proof.
  split.
  - apply (proj1 interpolation_between_entries
             [0; 1; 3]%float [10; 20; 40]%float 0 2%float 1
             1%float 3%float 20%float 40%float); reflexivity.
  - apply (proj2 interpolation_between_entries); reflexivity.
Defined.

(** ** Running [work] *)

Import Float32 Pmt.

(** Stand-ins for the two parameters of [work] when the model is run: a wrap
    into [-pi, pi] by one turn, and an oscillator that is right at phase 0,
    where [cos] is 1 and [sin (-0)] is [-0]. *)
Definition wrap_one_turn (x : float) : float :=
  if (GR_M_PI <? x)%float then (x - 2 * GR_M_PI)%float
  else if (x <? - GR_M_PI)%float then (x + 2 * GR_M_PI)%float
  else x.

Definition unit_oscillator (x : float) : gr_complex := mk_complex one neg_zero.

(** What the constructor establishes and [work] keeps: a non-empty table,
    vectors of equal length, and a cursor inside the table. *)
Definition well_formed (self : doppler_correction_impl) : bool :=
  (length (freqs_rad_per_sample self) =? length (times self)) &&
  (d_current_index self <? length (times self)).

(** An [rx_time] value as the runtime produces it: a tuple of whole seconds
    and a fraction; [work] passes over a value that is not a tuple. *)
Definition well_formed_tag (t : tag_t) : bool :=
  match value t with
  | pmt_tuple (secs :: frac :: _) =>
      returned (to_uint64 secs) && returned (to_double frac)
  | pmt_tuple _ => false
  | _ => true
  end.

Lemma make_well_formed contents sr t0 time0 frequency0 self :
  make contents sr t0 time0 frequency0 = Returns self ->
  well_formed self = true.
Proof.
  intros M.
  destruct (make_lengths _ _ _ _ _ _ M) as [L N].
  assert (I : d_current_index self = 0).
  { rewrite make_unfold in M.
    destruct (read_loop _ _ _ _ _ _ _) as [[ts1 fs1]| | |]; try discriminate.
    now injection M as <-. }
  unfold well_formed. rewrite I, <- L, Nat.eqb_refl. simpl.
  apply Nat.ltb_lt. lia.
Qed.

Lemma apply_tag_preserves self tag self' :
  apply_tag self tag = Returns self' ->
  d_samp_rate self' = d_samp_rate self /\ times self' = times self /\
  freqs_rad_per_sample self' = freqs_rad_per_sample self /\
  d_phase self' = d_phase self /\ d_current_index self' = d_current_index self.
Proof.
  unfold apply_tag. destruct (is_tuple (value tag)).
  - destruct (tuple_ref (value tag) 0) as [v0| | |]; try discriminate.
    destruct (to_uint64 v0) as [secs| | |]; try discriminate.
    destruct (tuple_ref (value tag) 1) as [v1| | |]; try discriminate.
    destruct (to_double v1) as [frac| | |]; try discriminate.
    intros [= <-]. simpl. auto.
  - intros [= <-]. auto.
Qed.

Lemma apply_tags_preserves d_tags : forall self self',
  apply_tags self d_tags = Returns self' ->
  d_samp_rate self' = d_samp_rate self /\ times self' = times self /\
  freqs_rad_per_sample self' = freqs_rad_per_sample self /\
  d_phase self' = d_phase self /\ d_current_index self' = d_current_index self.
Proof.
  induction d_tags as [|tag rest IH]; intros self self'; simpl.
  - intros [= <-]. auto.
  - destruct (apply_tag self tag) as [self1| | |] eqn:E; try discriminate.
    intros H. apply IH in H as (H1 & H2 & H3 & H4 & H5).
    apply apply_tag_preserves in E as (E1 & E2 & E3 & E4 & E5).
    repeat split; congruence.
Qed.

Lemma apply_tag_returns self tag :
  well_formed_tag tag = true -> returned (apply_tag self tag) = true.
Proof.
  unfold well_formed_tag, apply_tag.
  destruct (value tag) as [name|n|n|x|items]; try reflexivity.
  destruct items as [|secs [|frac rest]]; try discriminate. simpl.
  destruct (to_uint64 secs); try discriminate.
  destruct (to_double frac); try discriminate. reflexivity.
Qed.

Lemma apply_tags_returns d_tags : forall self,
  forallb well_formed_tag d_tags = true ->
  returned (apply_tags self d_tags) = true.
Proof.
  induction d_tags as [|tag rest IH]; intros self; simpl; [reflexivity|].
  intros H. apply andb_true_iff in H as [H1 H2].
  pose proof (apply_tag_returns self tag H1) as R.
  destruct (apply_tag self tag); try discriminate. now apply IH.
Qed.

Lemma window_well_formed stream_tags nread a b k :
  forallb well_formed_tag stream_tags = true ->
  forallb well_formed_tag (get_tags_in_window stream_tags nread a b k) = true.
Proof.
  unfold get_tags_in_window.
  induction stream_tags as [|t rest IH]; simpl; [reflexivity|].
  intros H. apply andb_true_iff in H as [H1 H2].
  destruct (_ && _); simpl; [rewrite H1|]; now apply IH.
Qed.

(** With a cursor inside a table of equal-length vectors, a lookup reads
    inside the vectors and leaves the cursor inside. *)
Lemma query_frequency_returns times freqs i t :
  length freqs = length times -> i < length times ->
  exists f c, query_frequency times freqs i t = Some (f, c) /\
              c < length times.
Proof.
  intros L I. pose proof (advance_lt times t i I) as A.
  unfold query_frequency.
  destruct (nth_error times (advance times t i)) as [ti|] eqn:Ti;
    [|apply nth_error_None in Ti; lia].
  destruct (nth_error freqs (advance times t i)) as [fi|] eqn:Fi;
    [|apply nth_error_None in Fi; lia].
  destruct ((t <? ti)%float || (advance times t i + 1 =? length times))
    eqn:C; [eauto|].
  apply orb_false_iff in C as [_ C]. apply Nat.eqb_neq in C.
  destruct (nth_error times (advance times t i + 1)) as [tn|] eqn:Tn;
    [|apply nth_error_None in Tn; lia].
  destruct (nth_error freqs (advance times t i + 1)) as [fn|] eqn:Fn;
    [|apply nth_error_None in Fn; lia].
  eauto.
Qed.







Section Samples.
Variable phase_wrap : float -> float.
Variable gr_expj : float -> gr_complex.

(** The sample loop returns one entry per input sample and leaves the cursor
    inside the table. *)
Lemma sample_loop_returns self nw input : forall j phase index,
  length (freqs_rad_per_sample self) = length (times self) ->
  index < length (times self) ->
  exists ss p i,
    sample_loop phase_wrap gr_expj self nw j input phase index
      = Returns (ss, p, i) /\ i < length (times self).
Proof.
  induction input as [|x rest IH]; intros j phase index L I; simpl.
  - eauto.
  - destruct (query_frequency_returns (times self) (freqs_rad_per_sample self)
                index
                (sample_time (d_t0 self) (d_sample_t0 self) (d_samp_rate self)
                   nw j) L I) as (f & c & Q & C).
    rewrite Q.
    destruct (IH (j + 1)%Z (phase_wrap (phase + f)%float) c L C)
      as (ss & p & i & E & Hi).
    rewrite E. eauto.
Qed.

Lemma sample_loop_times self nw input : forall j phase index ss p i,
  sample_loop phase_wrap gr_expj self nw j input phase index
    = Returns (ss, p, i) ->
  length ss = length input /\
  forall k s, nth_error ss k = Some s ->
    s_time s = sample_time (d_t0 self) (d_sample_t0 self) (d_samp_rate self)
                 nw (j + Z.of_nat k).
Proof.
  induction input as [|x rest IH]; intros j phase index ss p i; simpl.
  - intros [= <- _ _]. split; [reflexivity|]. intros [|k] s; discriminate.
  - destruct (query_frequency _ _ _ _) as [[freq index']|]; [|discriminate].
    destruct (sample_loop _ _ _ _ _ _ _ _) as [[[ss' p'] i']| | |] eqn:E;
      try discriminate.
    intros [= <- _ _]. apply IH in E as [L T]. split; [simpl; now rewrite L|].
    intros [|k] s; simpl.
    + intros [= <-]. simpl. now rewrite Z.add_0_r.
    + intros H. rewrite (T k s H). f_equal. lia.
Qed.

(** Across a buffer the cursor of the block does not decrease. *)
Lemma sample_loop_cursor self nw input : forall j phase index ss p i,
  sample_loop phase_wrap gr_expj self nw j input phase index
    = Returns (ss, p, i) ->
  index <= i.
Proof.
  induction input as [|x rest IH]; intros j phase index ss p i; simpl.
  - intros [= _ _ <-]. lia.
  - destruct (query_frequency _ _ _ _) as [[freq index']|] eqn:Q;
      [|discriminate].
    destruct (sample_loop _ _ _ _ _ _ _ _) as [[[ss' p'] i']| | |] eqn:E;
      try discriminate.
    intros [= _ _ <-]. apply IH in E. apply query_cursor in Q.
    pose proof (advance_ge (times self)
                  (sample_time (d_t0 self) (d_sample_t0 self)
                     (d_samp_rate self) nw j) index). lia.
Qed.

(** After every increment the phase goes through [phase_wrap] (lines
    97-98). *)
Lemma phase_is_wrapped_after_every_increment self nw input :
  forall j phase index ss p i,
  sample_loop phase_wrap gr_expj self nw j input phase index
    = Returns (ss, p, i) ->
  Forall (fun s => exists before,
            s_phase s = phase_wrap (before + s_freq s)%float) ss.
Proof.
  induction input as [|x rest IH]; intros j phase index ss p i; simpl.
  - intros [= <- _ _]. constructor.
  - destruct (query_frequency _ _ _ _) as [[freq index']|]; [|discriminate].
    destruct (sample_loop _ _ _ _ _ _ _ _) as [[[ss' p'] i']| | |] eqn:E;
      try discriminate.
    intros [= <- _ _]. constructor; [simpl; eauto|]. eapply IH, E.
Qed.

(** On a well-formed block and well-formed tags, [work] returns, and the
    block it leaves is well formed. *)
Lemma work_returns self stream_tags nread nwritten input :
  well_formed self = true ->
  forallb well_formed_tag stream_tags = true ->
  exists self' ss,
    work phase_wrap gr_expj self stream_tags nread nwritten input
      = Returns (self', ss) /\ well_formed self' = true.
Proof.
  intros W T. unfold work.
  pose proof (apply_tags_returns
                (get_tags_in_window stream_tags nread 0
                   (Z.of_nat (length input)) rx_time_key) self
                (window_well_formed _ _ _ _ _ T)) as R.
  destruct (apply_tags self _) as [self1| | |] eqn:A; try discriminate.
  pose proof (apply_tags_preserves _ _ _ A) as (E1 & E2 & E3 & E4 & E5).
  unfold well_formed in W. apply andb_true_iff in W as [W1 W2].
  apply Nat.eqb_eq in W1. apply Nat.ltb_lt in W2.
  destruct (sample_loop_returns self1 nwritten input 0%Z (d_phase self1)
              (d_current_index self1)) as (ss & p & i & E & Hi);
    [congruence|congruence|].
  rewrite E. do 2 eexists. split; [reflexivity|].
  unfold well_formed. simpl. rewrite E2, E3 in *.
  apply andb_true_iff. split; [now apply Nat.eqb_eq|now apply Nat.ltb_lt].
Qed.

End Samples.

(** ** Time anchors in [work] *)

Lemma apply_tags_app l1 : forall self l2,
  apply_tags self (l1 ++ l2)
  = match apply_tags self l1 with
    | Returns self1 => apply_tags self1 l2
    | other => other
    end.
Proof.
  induction l1 as [|tag rest IH]; intros self l2; simpl; [reflexivity|].
  destruct (apply_tag self tag); try reflexivity. apply IH.
Qed.

(** A tag whose value is no tuple changes nothing. *)
Lemma apply_tags_without_tuples d_tags : forall self,
  forallb (fun t => negb (is_tuple (value t))) d_tags = true ->
  apply_tags self d_tags = Returns self.
Proof.
  induction d_tags as [|tag rest IH]; intros self; simpl; [reflexivity|].
  intros H. apply andb_true_iff in H as [H1 H2].
  unfold apply_tag. apply negb_true_iff in H1. rewrite H1. now apply IH.
Qed.





(** The buffer of two unit samples with one event at offset 1, on a block
    anchored at time 0 and sample 0, with a sample rate of 1 Hz. *)
Definition anchored_block : doppler_correction_impl :=
  mk_impl 0 1 0 0 0 [0; 100]%float [0; 0]%float.

Definition event_at_1 : tag_t :=
  mk_tag 1 rx_time_key (pmt_tuple [pmt_uint64 50; pmt_real 0]).

Definition unit_sample : gr_complex := mk_complex one zero.


Definition samples_of (r : outcome (doppler_correction_impl * list sample))
    : list sample :=
  match r with
  | Returns (_, ss) => ss
  | _ => []
  end.



(** ** Mixing with a zero frequency *)

Definition finite_sample (x : gr_complex) : bool :=
  valid (real x) && Float32.is_finite (real x) &&
  valid (imag x) && Float32.is_finite (imag x).

Definition is_zero32 (x : float32) : bool :=
  match x with S754_zero _ => true | _ => false end.

Lemma float32_mul_one a : valid a = true -> mul a one = a.
Proof. intros V. apply (SF.SFmul_one_r 24 128 23 a V). Qed.

Lemma float32_mul_neg_zero b :
  Float32.is_finite b = true -> is_zero32 (mul b neg_zero) = true.
Proof. now destruct b. Qed.

Lemma float32_sub_zero a z :
  Float32.is_finite a = true -> is_zero32 z = true ->
  Float32.eqb (Float32.sub a z) a = true.
Proof.
  destruct z as [sz| | |]; try discriminate.
  destruct a as [s|s| |s m e]; try discriminate; intros _ _.
  - now destruct s, sz.
  - apply SFeqb_refl. discriminate.
Qed.

Lemma float32_add_zero z b :
  Float32.is_finite b = true -> is_zero32 z = true ->
  Float32.eqb (Float32.add z b) b = true.
Proof.
  destruct z as [sz| | |]; try discriminate.
  destruct b as [s|s| |s m e]; try discriminate; intros _ _.
  - now destruct s, sz.
  - apply SFeqb_refl. discriminate.
Qed.

(** Multiplying a finite sample by [1 - 0i]. *)
Lemma multiply_by_one x :
  finite_sample x = true ->
  complex_eqb (fast_cc_multiply x (mk_complex one neg_zero)) x = true.
Proof.
  unfold finite_sample. intros F.
  apply andb_true_iff in F as [F Fi]. apply andb_true_iff in F as [F Vi].
  apply andb_true_iff in F as [Vr Fr].
  unfold complex_eqb, fast_cc_multiply. simpl.
  rewrite !float32_mul_one by assumption.
  rewrite float32_sub_zero, float32_add_zero;
    auto using float32_mul_neg_zero.
Qed.

Lemma eqb_zero f : (f =? 0)%float = true -> is_zero_sf (Prim2SF f) = true.
Proof.
  rewrite eqb_spec. change (Prim2SF 0) with (S754_zero false).
  unfold SFeqb. destruct (Prim2SF f) as [s|s| |s m e]; try reflexivity;
    simpl; try discriminate; now destruct s.
Qed.

Lemma zero_add_zero f : (f =? 0)%float = true -> (0 + f)%float = 0%float.
Proof.
  intros H. apply eqb_zero in H. apply Prim2SF_inj. rewrite add_spec.
  change (Prim2SF 0) with (S754_zero false).
  destruct (Prim2SF f) as [s| | |]; try discriminate. now destruct s.
Qed.

Section Mixing.
Variable phase_wrap : float -> float.
Variable gr_expj : float -> gr_complex.
Hypothesis wrap_zero : phase_wrap 0 = 0%float.
Hypothesis expj_zero : gr_expj (PrimFloat.opp 0) = mk_complex one neg_zero.

Lemma sample_loop_zero_frequency self nw input : forall j index ss p i,
  Forall (fun x => finite_sample x = true) input ->
  sample_loop phase_wrap gr_expj self nw j input 0 index
    = Returns (ss, p, i) ->
  Forall (fun s => (s_freq s =? 0)%float = true) ss ->
  Forall2 (fun x s => complex_eqb (s_out s) x = true) input ss /\
  Forall (fun s => s_phase s = 0%float) ss /\ p = 0%float.
Proof.
  induction input as [|x rest IH]; intros j index ss p i Fin; simpl.
  - intros [= <- <- _] _. repeat constructor.
  - destruct (query_frequency _ _ _ _) as [[freq index']|]; [|discriminate].
    destruct (sample_loop _ _ _ _ _ _ (phase_wrap (0 + freq)) _)
      as [[[ss' p'] i']| | |] eqn:E; try discriminate.
    intros [= <- <- <-] Z. inversion Z as [|s l Zs Zl]; subst. simpl in Zs.
    inversion Fin as [|y l Fx Fr]; subst.
    rewrite (zero_add_zero _ Zs), wrap_zero, expj_zero in *.
    destruct (IH _ _ _ _ _ Fr E Zl) as (O & P & Q).
    repeat split; try assumption; constructor; try assumption.
    + simpl. now apply multiply_by_one.
    + reflexivity.
Qed.

End Mixing.

(** C9.  Let [phase_wrap] leave the phase 0 where it is and let the
    oscillator at phase [-0] be [1 - 0i] ([cos 0 = 1], [sin (-0) = -0]).
    On a well-formed block with a phase of 0, as the constructor sets it,
    [work] returns and leaves the block well formed, and if the frequency
    found for every sample of the buffer is 0, then every output sample
    equals ([==]) its input sample, for finite input samples, and the phase
    is 0 after every sample and on return, as the next buffer needs it. *)
Theorem zero_frequency_is_identity :
  forall phase_wrap gr_expj self stream_tags nread nwritten input,
    phase_wrap 0%float = 0%float ->
    gr_expj (PrimFloat.opp 0) = mk_complex one neg_zero ->
    d_phase self = 0%float ->
    well_formed self = true ->
    forallb well_formed_tag stream_tags = true ->
    Forall (fun x => finite_sample x = true) input ->
    exists self' ss,
      work phase_wrap gr_expj self stream_tags nread nwritten input
        = Returns (self', ss) /\
      well_formed self' = true /\
      (Forall (fun s => (s_freq s =? 0)%float = true) ss ->
       Forall2 (fun x s => complex_eqb (s_out s) x = true) input ss /\
       Forall (fun s => s_phase s = 0%float) ss /\
       d_phase self' = 0%float).
Proof.
  intros phase_wrap gr_expj self stream_tags nread nwritten input
         W X P0 WF T Fin.
  destruct (work_returns phase_wrap gr_expj self stream_tags nread nwritten
              input WF T) as (self' & ss & R & WF').
  exists self', ss. split; [exact R|]. split; [exact WF'|]. clear WF'.
  revert R. unfold work.
  destruct (apply_tags self _) as [self1| | |] eqn:A; try discriminate.
  pose proof (apply_tags_preserves _ _ _ A) as (_ & _ & _ & E4 & _).
  rewrite E4, P0.
  destruct (sample_loop _ _ _ _ _ _ _ _) as [[[ss1 p] i]| | |] eqn:L;
    try discriminate.
  intros [= <- <-] Z. simpl.
  exact (sample_loop_zero_frequency phase_wrap gr_expj W X self1 nwritten
           input 0%Z _ ss1 p i Fin L Z).
Qed.

Definition zero_table_block : doppler_correction_impl :=
  mk_impl 0 1000 0 0 0 [0; 1]%float [0; 0]%float.

Definition some_sample : gr_complex :=
  mk_complex (S754_finite true 12582912 (-23)) (S754_finite false 8388608 (-25)).

Lemma zero_frequency_is_identity_witness :
  Forall2 (fun x s => complex_eqb (s_out s) x = true)
    [unit_sample; some_sample]
    (samples_of (work wrap_one_turn unit_oscillator zero_table_block [] 0 0
                   [unit_sample; some_sample])).
Proof.
  destruct (zero_frequency_is_identity wrap_one_turn unit_oscillator
              zero_table_block [] 0 0 [unit_sample; some_sample]
              eq_refl eq_refl eq_refl eq_refl eq_refl
              ltac:(repeat constructor))
    as (self' & ss & R & _ & H).
  assert (E : ss = samples_of (work wrap_one_turn unit_oscillator
                                 zero_table_block [] 0 0
                                 [unit_sample; some_sample]))
    by (rewrite R; reflexivity).
  rewrite <- E. apply H. rewrite E. vm_compute. repeat constructor.
Defined.


(** * Further properties of the loader *)

Lemma iterate_succ n sr : forall st,
  iterate (S n) sr st = body sr (iterate n sr st).
Proof.
  induction n as [|k IH]; intros st; [reflexivity|].
  change (iterate (S (S k)) sr st) with (iterate (S k) sr (body sr st)).
  rewrite IH. reflexivity.
Qed.

(** The loop from its start, after [n] turns that left the stream good and
    one more turn, with fuel left for the tests of the loop head. *)
Lemma read_loop_decided contents sr time0 frequency0 n :
  good (input_file (iterate n sr (initial contents time0 frequency0))) = true ->
  let st := iterate (S n) sr (initial contents time0 frequency0) in
  read_loop (read_fuel (open contents)) (open contents) time0 frequency0 sr
    [] []
  = read_loop (S (length (unread (open contents)) - n)) (input_file st)
      (time st) (frequency st) sr (ts st) (fs st).
Proof.
  intros G st.
  set (st0 := initial contents time0 frequency0) in *.
  destruct (iterate_good n sr st0 G) as [G0 L].
  destruct (good_flags _ G) as [E _].
  unfold read_fuel.
  replace (length (unread (open contents)) + 2)
    with (n + S (S (length (unread (open contents)) - n)))
    by (change (open contents) with (input_file st0); lia).
  change (read_loop ?k (open contents) time0 frequency0 sr [] [])
    with (read_loop k (input_file st0) (time st0) (frequency st0) sr
            (ts st0) (fs st0)).
  rewrite read_loop_iterate by exact G. cbv zeta.
  rewrite read_loop_body by assumption. cbv zeta.
  rewrite <- iterate_succ. reflexivity.
Qed.

Lemma read_loop_at_eof fuel s t f sr ts0 fs0 :
  eofbit s = true -> read_loop (S fuel) s t f sr ts0 fs0 = Returns (ts0, fs0).
Proof. intros E. simpl. unfold eof. now rewrite E. Qed.

Lemma read_loop_at_fail fuel s t f sr ts0 fs0 :
  eofbit s = false -> failbit s = true ->
  read_loop (S fuel) s t f sr ts0 fs0 = Throws format_error.
Proof.
  intros E F. simpl. unfold eof, good. rewrite E, F. reflexivity.
Qed.

Lemma loader_flags_throw contents sr t0 time0 frequency0 n :
  good (input_file (iterate n sr (initial contents time0 frequency0))) = true ->
  eofbit (input_file (iterate (S n) sr (initial contents time0 frequency0)))
    = false /\
  failbit (input_file (iterate (S n) sr (initial contents time0 frequency0)))
    = true ->
  make contents sr t0 time0 frequency0 = Throws format_error.
Proof.
  intros G [E F].
  rewrite make_unfold, (read_loop_decided contents sr time0 frequency0 n G).
  cbv zeta. now rewrite read_loop_at_fail.
Qed.

Lemma loader_flags_return contents sr t0 time0 frequency0 n :
  good (input_file (iterate n sr (initial contents time0 frequency0))) = true ->
  eofbit (input_file (iterate (S n) sr (initial contents time0 frequency0)))
    = true ->
  make contents sr t0 time0 frequency0
  = Returns (mk_impl 0 sr 0 t0 0
               (ts (iterate (S n) sr (initial contents time0 frequency0)))
               (fs (iterate (S n) sr (initial contents time0 frequency0)))).
Proof.
  intros G E.
  rewrite make_unfold, (read_loop_decided contents sr time0 frequency0 n G).
  cbv zeta. now rewrite read_loop_at_eof.
Qed.

(** X1.  Construction always ends: it returns a block or throws the format
    error, and a block that is returned has vectors of equal length and its
    cursor inside the table. *)
Theorem construction_returns_a_well_formed_block_or_throws :
  forall contents sr t0 time0 frequency0,
    (exists self, make contents sr t0 time0 frequency0 = Returns self /\
                  well_formed self = true /\
                  d_phase self = 0%float /\ d_current_index self = 0 /\
                  d_t0 self = t0 /\ d_sample_t0 self = 0%Z /\
                  d_samp_rate self = sr) \/
    make contents sr t0 time0 frequency0 = Throws format_error.
Proof.
  intros contents sr t0 time0 frequency0.
  destruct (make_total contents sr t0 time0 frequency0) as [[self M]|M];
    [left|now right].
  exists self. split; [exact M|]. split; [exact (make_well_formed _ _ _ _ _ _ M)|].
  rewrite make_unfold in M.
  destruct (read_loop _ _ _ _ _ _ _) as [[ts1 fs1]| | |]; try discriminate.
  injection M as <-. simpl. auto.
Qed.

(** A file that cannot be opened is reported as a format error, whatever the
    other arguments are. *)
Lemma missing_file_throws_format_error :
  forall sr t0 time0 frequency0,
    make None sr t0 time0 frequency0 = Throws format_error.
Proof. reflexivity. Qed.

(** X2.  What decides the outcome of the loader: after [n] turns that left
    the stream good, the next turn decides.  If it sets [eofbit], the loader
    returns exactly the entries pushed so far, that turn's included, whether
    its extractions succeeded or not; if it leaves the stream failed with
    [eofbit] clear, the loader throws the format error. *)
Theorem loader_outcome_is_decided_by_the_first_turn_not_good :
  forall contents sr t0 time0 frequency0 n,
    good (input_file (iterate n sr (initial contents time0 frequency0)))
      = true ->
    let st := iterate (S n) sr (initial contents time0 frequency0) in
    (eofbit (input_file st) = true ->
     make contents sr t0 time0 frequency0
     = Returns (mk_impl 0 sr 0 t0 0 (ts st) (fs st))) /\
    (eofbit (input_file st) = false -> failbit (input_file st) = true ->
     make contents sr t0 time0 frequency0 = Throws format_error).
Proof.
  intros contents sr t0 time0 frequency0 n G st. split.
  - intros E. now apply loader_flags_return.
  - intros E F. apply (loader_flags_throw _ _ _ _ _ n G). now split.
Qed.

Lemma loader_outcome_is_decided_by_the_first_turn_not_good_witness :
  make (Some "1 2 3"%string) 1000 0 0 0
  = Returns (mk_impl 0 1000 0 0 0 [1%float; 3%float]
               [angular 1000 2; angular 1000 2]) /\
  make (Some "1 2 3x"%string) 1000 0 0 0 = Throws format_error.
Proof.
  split.
  - apply (proj1 (loader_outcome_is_decided_by_the_first_turn_not_good
                    (Some "1 2 3"%string) 1000%float 0%float 0%float 0%float
                    1 eq_refl)).
    reflexivity.
  - apply (proj2 (loader_outcome_is_decided_by_the_first_turn_not_good
                    (Some "1 2 3x"%string) 1000%float 0%float 0%float 0%float
                    1 eq_refl)); reflexivity.
Defined.

(** A character that can start a number: a digit, a sign or the point. *)
Definition starts_field (c : ascii) : bool :=
  match digit_of c with
  | Some _ => true
  | None => (c =? "+")%char || (c =? "-")%char || (c =? ".")%char
  end.

(** The stream is good and the next character after white space cannot start
    a number. *)
Definition at_bad_character (s : istream) : bool :=
  good s &&
  match skipws (unread s) with
  | c :: _ => negb (starts_field c)
  | [] => false
  end.

Lemma scan_field_bad_character c rest :
  starts_field c = false ->
  scan_field (c :: rest) = (mk_field false 0 0 0 false false 0 0, c :: rest).
Proof.
  destruct c as [[] [] [] [] [] [] [] []]; try discriminate; reflexivity.
Qed.

Lemma extract_bad_character s v :
  at_bad_character s = true ->
  eofbit (fst (extract s v)) = false /\ failbit (fst (extract s v)) = true /\
  snd (extract s v) = 0%float.
Proof.
  unfold at_bad_character, extract. intros H.
  apply andb_true_iff in H as [G B]. rewrite G.
  destruct (skipws (unread s)) as [|c rest]; [discriminate|].
  apply negb_true_iff in B.
  rewrite (scan_field_bad_character c rest B). simpl. auto.
Qed.

(** X3.  A character that cannot start a number, where a time or a
    frequency is expected, makes the loader throw: after any number of
    complete records, if the next character after white space is no digit,
    sign or point, either at the start of a record or after its time, the
    outcome is the format error. *)
Theorem bad_character_throws :
  forall contents sr t0 time0 frequency0 n,
    let st := iterate n sr (initial contents time0 frequency0) in
    good (input_file st) = true ->
    at_bad_character (input_file st) = true \/
    at_bad_character (fst (extract (input_file st) (time st))) = true ->
    make contents sr t0 time0 frequency0 = Throws format_error.
Proof.
  intros contents sr t0 time0 frequency0 n st G B.
  apply (loader_flags_throw contents sr t0 time0 frequency0 n G).
  fold st. rewrite iterate_succ. fold st. unfold body.
  destruct B as [B|B].
  - destruct (extract_bad_character _ (time st) B) as (E & F & _).
    destruct (extract (input_file st) (time st)) as [s1 t1]. simpl in E, F.
    rewrite extract_not_good by (unfold good; rewrite F; apply andb_false_r).
    simpl. auto.
  - destruct (extract (input_file st) (time st)) as [s1 t1]. simpl in B.
    destruct (extract_bad_character _ (frequency st) B) as (E & F & _).
    destruct (extract s1 (frequency st)) as [s2 f2]. simpl in *. auto.
Qed.

Lemma bad_character_throws_witness :
  make (Some "abc def"%string) 1000 0 0 0 = Throws format_error /\
  make (Some "1 2 3 x"%string) 1000 0 0 0 = Throws format_error.
Proof.
  split.
  - apply (bad_character_throws (Some "abc def"%string) 1000%float 0%float
             0%float 0%float 0 eq_refl). left. reflexivity.
  - apply (bad_character_throws (Some "1 2 3 x"%string) 1000%float 0%float
             0%float 0%float 1 eq_refl). right. reflexivity.
Defined.


(** * Further properties of the frequency lookup *)

Lemma advance_fixed times t i :
  advance times t (advance times t i) = advance times t i.
Proof. apply advance_stay, advance_exit. Qed.

(** X4.  With vectors of equal length the lookup reads inside the vectors
    exactly when the cursor is inside the table: it is undefined behaviour
    (an out-of-range subscript) if and only if [times.size() <=
    d_current_index], which includes every lookup on an empty table. *)
Theorem lookup_is_defined_iff_cursor_in_table :
  forall times freqs i t,
    length freqs = length times ->
    (query_frequency times freqs i t = None <-> length times <= i).
Proof.
  intros times freqs i t L. split.
  - intros Q. destruct (Nat.lt_ge_cases i (length times)) as [I|I]; [|exact I].
    destruct (query_frequency_returns times freqs i t L I) as (f & c & E & _).
    congruence.
  - intros I. unfold query_frequency.
    assert (A : advance times t i = i).
    { apply advance_stay. unfold advance_guard.
      replace (i + 1 <? length times) with false
        by (symmetry; apply Nat.ltb_ge; lia).
      reflexivity. }
    rewrite A.
    replace (nth_error times i) with (@None float)
      by (symmetry; apply nth_error_None; exact I).
    reflexivity.
Qed.

Lemma lookup_is_defined_iff_cursor_in_table_witness :
  (query_frequency [0; 1]%float [10; 20]%float 2 0.5%float = None
   <-> length [0; 1]%float <= 2) /\
  (query_frequency [] [] 0 0.5%float = None <-> length (@nil float) <= 0).
Proof.
  split.
  - apply (lookup_is_defined_iff_cursor_in_table [0; 1]%float
             [10; 20]%float 2 0.5%float). reflexivity.
  - apply (lookup_is_defined_iff_cursor_in_table [] [] 0 0.5%float).
    reflexivity.
Defined.

(** X5.  A lookup repeated at the same time gives the same frequency and
    leaves the cursor where the first lookup put it. *)
Theorem repeated_lookup_is_stable :
  forall times freqs i t f c,
    query_frequency times freqs i t = Some (f, c) ->
    query_frequency times freqs c t = Some (f, c).
Proof.
  intros times freqs i t f c Q.
  pose proof (query_cursor _ _ _ _ _ _ Q) as C. subst c.
  revert Q. unfold query_frequency. rewrite advance_fixed. auto.
Qed.

Lemma repeated_lookup_is_stable_witness :
  query_frequency [0; 1; 3]%float [10; 20; 40]%float 1 2%float
  = Some (interpolate 2 1 3 20 40, 1).
Proof.
  apply (repeated_lookup_is_stable [0; 1; 3]%float [10; 20; 40]%float 0
           2%float). reflexivity.
Defined.

Lemma advance_guard_later times t1 t2 i :
  (t1 <=? t2)%float = true ->
  advance_guard times t1 i = true -> advance_guard times t2 i = true.
Proof.
  unfold advance_guard. intros T G.
  apply andb_true_iff in G as [G1 G2]. rewrite G1. simpl.
  destruct (nth_error times (i + 1)) as [next|]; [|discriminate].
  exact (leb_trans _ _ _ G2 T).
Qed.

Lemma advance_loop_then_later times t1 t2 :
  (t1 <=? t2)%float = true ->
  forall fuel i,
    advance times t2 (advance_loop fuel times t1 i) = advance times t2 i.
Proof.
  intros T. induction fuel as [|k IH]; intros i; simpl; [reflexivity|].
  destruct (advance_guard times t1 i) eqn:G; [|reflexivity].
  rewrite IH. symmetry. apply advance_step.
  exact (advance_guard_later _ _ _ _ T G).
Qed.

(** X6.  The cursor kept between lookups does not change their results when
    the times do not decrease: a lookup at [t2] after a lookup at [t1 <= t2]
    returns the frequency and the cursor that the lookup at [t2] returns from
    the cursor the first lookup started with. *)
Theorem kept_cursor_is_transparent_for_later_times :
  forall times freqs i t1 t2,
    (t1 <=? t2)%float = true ->
    advance times t2 (advance times t1 i) = advance times t2 i /\
    query_frequency times freqs (advance times t1 i) t2
    = query_frequency times freqs i t2.
Proof.
  intros times freqs i t1 t2 T.
  assert (A : advance times t2 (advance times t1 i) = advance times t2 i)
    by (apply advance_loop_then_later; exact T).
  split; [exact A|]. unfold query_frequency. now rewrite A.
Qed.

Lemma kept_cursor_is_transparent_for_later_times_witness :
  query_frequency [0; 1; 3; 7]%float [10; 20; 40; 80]%float
    (advance [0; 1; 3; 7]%float 2 0) 5%float
  = query_frequency [0; 1; 3; 7]%float [10; 20; 40; 80]%float 0 5%float.
Proof.
  apply (kept_cursor_is_transparent_for_later_times
           [0; 1; 3; 7]%float [10; 20; 40; 80]%float 0 2%float 5%float).
  reflexivity.
Defined.

Lemma leb_false_ltb tc tn t :
  (tc <=? t)%float = true -> (tc <=? tn)%float = true ->
  (tn <=? t)%float = false -> (t <? tn)%float = true.
Proof.
  rewrite ltb_spec, !leb_spec. unfold SFleb, SFltb.
  sf_order (Prim2SF tc) (Prim2SF tn) (Prim2SF t).
Qed.

Lemma advance_loop_below times t : forall fuel i ti,
  nth_error times i = Some ti -> (ti <=? t)%float = true ->
  exists tc, nth_error times (advance_loop fuel times t i) = Some tc /\
             (tc <=? t)%float = true.
Proof.
  induction fuel as [|k IH]; intros i ti Hi Ht; simpl; [eauto|].
  destruct (advance_guard times t i) eqn:G; [|eauto].
  unfold advance_guard in G. apply andb_true_iff in G as [_ G].
  destruct (nth_error times (i + 1)) as [next|] eqn:N; [|discriminate].
  exact (IH (i + 1) next N G).
Qed.

(** X7.  The cursor brackets the query time.  In a table with non-decreasing
    [times], a lookup at [t] from a cursor with [times[cursor] <= t] leaves a
    cursor [c] with [times[c] <= t], and either [c] is the last index or
    [t < times[c+1]]: the interval used for the interpolation contains [t]. *)
Theorem cursor_brackets_the_query_time :
  forall times t i ti,
    nondecreasing times = true ->
    nth_error times i = Some ti -> (ti <=? t)%float = true ->
    exists tc,
      nth_error times (advance times t i) = Some tc /\
      (tc <=? t)%float = true /\
      (advance times t i + 1 = length times \/
       exists tn, nth_error times (advance times t i + 1) = Some tn /\
                  (t <? tn)%float = true).
Proof.
  intros times t i ti S Hi Ht.
  destruct (advance_loop_below times t (length times - i) i ti Hi Ht)
    as (tc & Hc & Hct).
  fold (advance times t i) in Hc.
  exists tc. split; [exact Hc|]. split; [exact Hct|].
  pose proof (advance_exit times t i) as G. unfold advance_guard in G.
  assert (C : advance times t i < length times)
    by (apply nth_error_Some; congruence).
  destruct (nth_error times (advance times t i + 1)) as [tn|] eqn:N.
  - right. exists tn. split; [reflexivity|].
    assert (L : (advance times t i + 1 <? length times) = true)
      by (apply Nat.ltb_lt, nth_error_Some; congruence).
    rewrite L in G. simpl in G.
    apply (leb_false_ltb tc tn t Hct); [|exact G].
    exact (nondecreasing_adjacent times _ tc tn S Hc N).
  - left. apply nth_error_None in N. lia.
Qed.

Lemma cursor_brackets_the_query_time_witness :
  exists tc,
    nth_error [0; 1; 3; 7]%float (advance [0; 1; 3; 7]%float 5 0) = Some tc /\
    (tc <=? 5)%float = true /\
    (advance [0; 1; 3; 7]%float 5 0 + 1 = 4 \/
     exists tn, nth_error [0; 1; 3; 7]%float
                  (advance [0; 1; 3; 7]%float 5 0 + 1) = Some tn /\
                (5 <? tn)%float = true).
Proof.
  apply (cursor_brackets_the_query_time [0; 1; 3; 7]%float 5%float 0 0%float);
    reflexivity.
Defined.

(** Strictly increasing times, and vectors of finite numbers. *)
Fixpoint increasing (l : list float) : bool :=
  match l with
  | a :: (b :: _) as tl => (a <? b)%float && increasing tl
  | _ => true
  end.

Lemma increasing_nondecreasing l : increasing l = true -> nondecreasing l = true.
Proof.
  induction l as [|a l IH]; [reflexivity|].
  destruct l as [|b l]; [reflexivity|].
  simpl. intros H. apply andb_true_iff in H as [H1 H2].
  rewrite (ltb_leb _ _ H1). exact (IH H2).
Qed.

Lemma increasing_adjacent l i a b :
  increasing l = true ->
  nth_error l i = Some a -> nth_error l (i + 1) = Some b ->
  (a <? b)%float = true.
Proof.
  revert i; induction l as [|x l IH]; intros i Hs Ha Hb.
  - destruct i; discriminate.
  - destruct i as [|i].
    + simpl in Ha, Hb. injection Ha as ->.
      destruct l as [|y l]; [discriminate|]. injection Hb as ->.
      simpl in Hs. now apply andb_true_iff in Hs as [Hs _].
    + apply (IH i); [|exact Ha|exact Hb].
      destruct l as [|y l]; [reflexivity|].
      simpl in Hs. now apply andb_true_iff in Hs as [_ Hs].
Qed.

Lemma leb_refl_finite x : Double.is_finite x = true -> (x <=? x)%float = true.
Proof.
  unfold Double.is_finite. rewrite leb_spec. unfold SFleb.
  destruct (Prim2SF x) as [s|s| |s m e]; try discriminate; simpl.
  - reflexivity.
  - rewrite Z.compare_refl, Pos.compare_cont_refl. now destruct s.
Qed.

Lemma eqb_refl_finite x : Double.is_finite x = true -> (x =? x)%float = true.
Proof.
  unfold Double.is_finite. rewrite eqb_spec. intros F.
  apply SFeqb_refl. now destruct (Prim2SF x).
Qed.

(** In a sorted table the entries up to [k] are at most [times[k]]. *)
Lemma nondecreasing_below times k tk :
  nondecreasing times = true ->
  nth_error times k = Some tk -> (tk <=? tk)%float = true ->
  forall d j tj, j + d = k -> nth_error times j = Some tj ->
    (tj <=? tk)%float = true.
Proof.
  intros S Hk R. induction d as [|d IH]; intros j tj E Hj.
  - rewrite Nat.add_0_r in E. subst j. congruence.
  - destruct (nth_error times (j + 1)) as [tn|] eqn:N.
    + apply leb_trans with tn.
      * exact (nondecreasing_adjacent times j tj tn S Hj N).
      * apply (IH (j + 1) tn); [lia|exact N].
    + apply nth_error_None in N.
      assert (k < length times) by (apply nth_error_Some; congruence). lia.
Qed.

(** The loop stops at an index [k] whose successor is beyond [t], having
    passed the entries before it. *)
Lemma advance_loop_reaches times t k :
  advance_guard times t k = false ->
  (forall j, j < k -> advance_guard times t j = true) ->
  forall fuel i, i <= k -> k - i <= fuel -> advance_loop fuel times t i = k.
Proof.
  intros Gk Gj. induction fuel as [|f IH]; intros i Hi Hf; simpl.
  - lia.
  - destruct (Nat.eq_dec i k) as [->|Ne]; [now rewrite Gk|].
    rewrite Gj by lia. apply IH; lia.
Qed.

Lemma interpolate_at_left_end t0 t1 f0 f1 :
  (t0 <? t1)%float = true ->
  Double.is_finite t0 = true -> Double.is_finite f0 = true ->
  Double.is_finite f1 = true ->
  (interpolate t0 t0 t1 f0 f1 =? f0)%float = true.
Proof.
  intros Hlt Ft0 Ff0 Ff1. unfold interpolate. cbv zeta.
  rewrite (sub_self _ Ft0).
  pose proof (sub_nonzero t1 t0 Hlt Ft0) as Hd.
  assert (Hz : is_zero_sf (Prim2SF (0 / (t1 - t0))%float) = true)
    by (apply zero_div_nonzero; [reflexivity|exact Hd]).
  rewrite (one_sub_zero _ Hz), mul_one_l.
  apply add_zero_eqb; [exact Ff0|]. now apply zero_mul_finite.
Qed.

Lemma forallb_nth {A} (p : A -> bool) l i x :
  forallb p l = true -> nth_error l i = Some x -> p x = true.
Proof.
  intros F N. rewrite forallb_forall in F. apply F.
  eapply nth_error_In; eauto.
Qed.

(** X8.  The interpolation passes through the table.  In a table of finite
    numbers with strictly increasing [times], a lookup at the time of entry
    [k], from any cursor at or before [k], leaves the cursor at [k] and
    returns a frequency equal ([==]) to [freqs[k]]. *)
Theorem lookup_at_a_table_time_returns_its_frequency :
  forall times freqs i k tk fk,
    increasing times = true ->
    forallb Double.is_finite times = true ->
    forallb Double.is_finite freqs = true ->
    length freqs = length times ->
    i <= k ->
    nth_error times k = Some tk -> nth_error freqs k = Some fk ->
    exists r, query_frequency times freqs i tk = Some (r, k) /\
              (r =? fk)%float = true.
Proof.
  intros times freqs i k tk fk Inc Ft Ff L Hi Hk Hfk.
  pose proof (increasing_nondecreasing _ Inc) as S.
  pose proof (forallb_nth _ _ _ _ Ft Hk) as Ftk.
  pose proof (forallb_nth _ _ _ _ Ff Hfk) as Ffk.
  pose proof (leb_refl_finite _ Ftk) as R.
  assert (K : k < length times) by (apply nth_error_Some; congruence).
  assert (Gk : advance_guard times tk k = false).
  { unfold advance_guard.
    destruct (nth_error times (k + 1)) as [tn|] eqn:N;
      [|now rewrite andb_false_r].
    pose proof (increasing_adjacent _ _ _ _ Inc Hk N) as Lt.
    rewrite (ltb_leb_false tk tn tn Lt (ltb_refl_r _ _ Lt)).
    apply andb_false_r. }
  assert (Gj : forall j, j < k -> advance_guard times tk j = true).
  { intros j Hj. unfold advance_guard.
    replace (j + 1 <? length times) with true
      by (symmetry; apply Nat.ltb_lt; lia).
    destruct (nth_error times (j + 1)) as [tn|] eqn:N.
    - simpl. apply (nondecreasing_below times k tk S Hk R (k - (j + 1)) (j + 1));
        [lia|exact N].
    - apply nth_error_None in N. lia. }
  assert (A : advance times tk i = k)
    by (apply (advance_loop_reaches times tk k Gk Gj); lia).
  unfold query_frequency. rewrite A, Hk, ltb_irrefl, Hfk. simpl.
  destruct (k + 1 =? length times) eqn:Last.
  - exists fk. split; [reflexivity|exact (eqb_refl_finite _ Ffk)].
  - apply Nat.eqb_neq in Last.
    destruct (nth_error times (k + 1)) as [tn|] eqn:N;
      [|apply nth_error_None in N; lia].
    destruct (nth_error freqs (k + 1)) as [fn|] eqn:Nf;
      [|apply nth_error_None in Nf; lia].
    eexists. split; [reflexivity|].
    apply (interpolate_at_left_end tk tn fk fn).
    + exact (increasing_adjacent _ _ _ _ Inc Hk N).
    + exact Ftk.
    + exact Ffk.
    + exact (forallb_nth _ _ _ _ Ff Nf).
Qed.

Lemma lookup_at_a_table_time_returns_its_frequency_witness :
  exists r,
    query_frequency [0; 1; 3; 7]%float [10; 20; 40; 80]%float 0 3%float
      = Some (r, 2) /\ (r =? 40)%float = true.
Proof.
  apply (lookup_at_a_table_time_returns_its_frequency
           [0; 1; 3; 7]%float [10; 20; 40; 80]%float 0 2 3%float 40%float);
    try reflexivity. lia.
Defined.

(** X9.  A lookup before the cursor holds the frequency at the cursor.  In a
    table with non-decreasing [times], a lookup at a time before
    [times[cursor]] (time has moved back, or the stream starts before the
    table) returns [freqs[cursor]] and leaves the cursor where it is: the
    cursor is not set back to the interval that contains the time. *)
Theorem lookup_before_the_cursor_holds :
  forall times freqs c tc fc t,
    nondecreasing times = true ->
    nth_error times c = Some tc -> nth_error freqs c = Some fc ->
    (t <? tc)%float = true ->
    query_frequency times freqs c t = Some (fc, c).
Proof.
  intros times freqs c tc fc t S Hc Hf Ht.
  assert (A : advance times t c = c).
  { apply advance_stay. unfold advance_guard.
    destruct (nth_error times (c + 1)) as [tn|] eqn:N;
      [|now rewrite andb_false_r].
    rewrite (ltb_leb_false t tc tn Ht), andb_false_r; [reflexivity|].
    exact (nondecreasing_adjacent times c tc tn S Hc N). }
  apply (query_hold _ _ _ _ _ tc _ A); try assumption.
  now rewrite Ht.
Qed.

Lemma lookup_before_the_cursor_holds_witness :
  query_frequency [0; 1; 3; 7]%float [10; 20; 40; 80]%float 2 0.5%float
  = Some (40%float, 2).
Proof.
  apply (lookup_before_the_cursor_holds [0; 1; 3; 7]%float
           [10; 20; 40; 80]%float 2 3%float); reflexivity.
Defined.


(** * Further properties of [work] *)

Lemma apply_tag_outcome self tag :
  match apply_tag self tag with
  | Returns _ => well_formed_tag tag = true
  | Throws _ => well_formed_tag tag = false
  | _ => False
  end.
Proof.
  unfold apply_tag, well_formed_tag.
  destruct (value tag) as [name|n|n|x|items]; try reflexivity.
  destruct items as [|v0 [|v1 rest]]; simpl.
  - reflexivity.
  - destruct v0 as [name|n|n|x|items]; simpl; try reflexivity.
    destruct (0 <=? n)%Z; reflexivity.
  - destruct v0 as [name|n|n|x|items]; simpl; try reflexivity;
      try (destruct (0 <=? n)%Z; simpl; try reflexivity);
      destruct v1 as [name'|n'|n'|x'|items']; reflexivity.
Qed.

Lemma apply_tags_throws d_tags : forall self,
  existsb (fun t => negb (well_formed_tag t)) d_tags = true ->
  exists w, apply_tags self d_tags = Throws w.
Proof.
  induction d_tags as [|tag rest IH]; intros self; simpl; [discriminate|].
  intros H. pose proof (apply_tag_outcome self tag) as O.
  destruct (apply_tag self tag) as [self1|w| |]; try contradiction.
  - rewrite O in H. simpl in H. now apply IH.
  - eauto.
Qed.

Lemma last_cons {A} (l : list A) : forall a d, last (a :: l) d = last l a.
Proof.
  induction l as [|b l IH]; intros a d; [reflexivity|].
  change (last (a :: b :: l) d) with (last (b :: l) d).
  rewrite !IH. reflexivity.
Qed.

Section Streaming.
Variable phase_wrap : float -> float.
Variable gr_expj : float -> gr_complex.

Lemma sample_loop_phase self nw input : forall j phase index ss p i,
  sample_loop phase_wrap gr_expj self nw j input phase index
    = Returns (ss, p, i) ->
  p = last (map s_phase ss) phase.
Proof.
  induction input as [|x rest IH]; intros j phase index ss p i; simpl.
  - now intros [= <- <- _].
  - destruct (query_frequency _ _ _ _) as [[freq index']|]; [|discriminate].
    destruct (sample_loop _ _ _ _ _ _ _ _) as [[[ss' p'] i']| | |] eqn:E;
      try discriminate.
    intros [= <- <- _]. apply IH in E. rewrite E.
    cbn [map s_phase]. now rewrite last_cons.
Qed.

(** The loop reads the block only through the anchor, the sample rate and the
    table. *)
Lemma sample_loop_same_fields self self' nw input :
  d_t0 self' = d_t0 self -> d_sample_t0 self' = d_sample_t0 self ->
  d_samp_rate self' = d_samp_rate self -> times self' = times self ->
  freqs_rad_per_sample self' = freqs_rad_per_sample self ->
  forall j phase index,
    sample_loop phase_wrap gr_expj self' nw j input phase index
    = sample_loop phase_wrap gr_expj self nw j input phase index.
Proof.
  intros E1 E2 E3 E4 E5.
  induction input as [|x rest IH]; intros j phase index; simpl;
    [reflexivity|].
  rewrite E1, E2, E3, E4, E5.
  destruct (query_frequency _ _ _ _) as [[freq index']|]; [|reflexivity].
  now rewrite IH.
Qed.

Lemma sample_time_shift t0 s0 sr nw j d :
  sample_time t0 s0 sr nw (j + d) = sample_time t0 s0 sr (nw + d) j.
Proof.
  unfold sample_time.
  replace (nw - s0 + (j + d))%Z with (nw + d - s0 + j)%Z by lia.
  reflexivity.
Qed.

Lemma sample_loop_shift self d input : forall nw j phase index,
  sample_loop phase_wrap gr_expj self nw (j + d) input phase index
  = sample_loop phase_wrap gr_expj self (nw + d) j input phase index.
Proof.
  induction input as [|x rest IH]; intros nw j phase index; simpl;
    [reflexivity|].
  rewrite sample_time_shift.
  destruct (query_frequency _ _ _ _) as [[freq index']|]; [|reflexivity].
  replace (j + d + 1)%Z with (j + 1 + d)%Z by lia. now rewrite IH.
Qed.

Lemma sample_loop_app self nw in2 in1 : forall j phase index ss1 p1 i1,
  sample_loop phase_wrap gr_expj self nw j in1 phase index
    = Returns (ss1, p1, i1) ->
  sample_loop phase_wrap gr_expj self nw j (in1 ++ in2) phase index
  = match sample_loop phase_wrap gr_expj self nw
            (j + Z.of_nat (length in1)) in2 p1 i1 with
    | Returns (ss2, p2, i2) => Returns (ss1 ++ ss2, p2, i2)
    | other => other
    end.
Proof.
  induction in1 as [|x rest IH]; intros j phase index ss1 p1 i1.
  - simpl. intros [= <- <- <-]. rewrite Z.add_0_r.
    destruct (sample_loop _ _ _ _ _ _ _ _) as [[[ss2 p2] i2]| | |];
      reflexivity.
  - simpl app. simpl sample_loop.
    destruct (query_frequency _ _ _ _) as [[freq index']|]; [|discriminate].
    destruct (sample_loop _ _ _ _ (j + 1)%Z rest _ _)
      as [[[ss' p'] i']| | |] eqn:E; try discriminate.
    intros [= <- <- <-]. rewrite (IH _ _ _ _ _ _ E).
    replace (j + 1 + Z.of_nat (length rest))%Z
      with (j + Z.of_nat (length (x :: rest)))%Z by (simpl length; lia).
    destruct (sample_loop _ _ _ _ _ in2 _ _) as [[[ss2 p2] i2]| | |];
      reflexivity.
Qed.

End Streaming.

Lemma window_without_key stream_tags nread a b k :
  forallb (fun t => negb (String.eqb (key t) k)) stream_tags = true ->
  get_tags_in_window stream_tags nread a b k = [].
Proof.
  unfold get_tags_in_window.
  induction stream_tags as [|t rest IH]; simpl; [reflexivity|].
  intros H. apply andb_true_iff in H as [H1 H2].
  apply negb_true_iff in H1. rewrite H1, andb_false_r. now apply IH.
Qed.

(** X10.  What [work] changes and what it keeps.  On a well-formed block and
    well-formed tags it returns one output per input sample; the table and
    the sample rate are as before; the cursor has not moved back; and the
    phase it keeps for the next call is the phase of the last sample (the
    phase it had, for an empty buffer). *)
Theorem work_keeps_the_table_and_carries_phase_and_cursor :
  forall phase_wrap gr_expj self stream_tags nread nwritten input,
    well_formed self = true ->
    forallb well_formed_tag stream_tags = true ->
    exists self' ss,
      work phase_wrap gr_expj self stream_tags nread nwritten input
        = Returns (self', ss) /\
      length ss = length input /\
      times self' = times self /\
      freqs_rad_per_sample self' = freqs_rad_per_sample self /\
      d_samp_rate self' = d_samp_rate self /\
      d_current_index self <= d_current_index self' /\
      d_phase self' = last (map s_phase ss) (d_phase self).
Proof.
  intros phase_wrap gr_expj self stream_tags nread nwritten input W T.
  destruct (work_returns phase_wrap gr_expj self stream_tags nread nwritten
              input W T) as (self' & ss & R & _).
  exists self', ss. split; [exact R|].
  revert R. unfold work.
  destruct (apply_tags self _) as [self1| | |] eqn:A; try discriminate.
  pose proof (apply_tags_preserves _ _ _ A) as (E1 & E2 & E3 & E4 & E5).
  destruct (sample_loop _ _ _ _ _ _ _ _) as [[[ss1 p] i]| | |] eqn:L;
    try discriminate.
  intros [= <- <-]. simpl.
  pose proof (sample_loop_times _ _ _ _ _ _ _ _ _ _ _ L) as [Len _].
  pose proof (sample_loop_cursor _ _ _ _ _ _ _ _ _ _ _ L) as C.
  pose proof (sample_loop_phase _ _ _ _ _ _ _ _ _ _ _ L) as P.
  repeat split; try assumption; congruence || lia.
Qed.

Lemma work_keeps_the_table_and_carries_phase_and_cursor_witness :
  exists self' ss,
    work wrap_one_turn unit_oscillator anchored_block [event_at_1] 0 0
      [unit_sample; unit_sample] = Returns (self', ss) /\
    length ss = 2 /\ times self' = [0; 100]%float.
Proof.
  destruct (work_keeps_the_table_and_carries_phase_and_cursor
              wrap_one_turn unit_oscillator anchored_block [event_at_1]
              0 0 [unit_sample; unit_sample] eq_refl eq_refl)
    as (self' & ss & R & Len & Tm & _).
  exists self', ss. repeat split; assumption.
Defined.

(** X11.  The last event decides the anchor, and nothing else does.  When the
    tags of the window end in a tuple event [(secs, frac)] at offset [o],
    followed at most by tags that are no tuples, [work] leaves the anchor
    [(double(secs) + frac, o)], whatever anchor was held and whatever
    well-formed events came before: an event replaces the anchor, it is not
    merged with it. *)
Theorem last_event_replaces_the_anchor :
  forall phase_wrap gr_expj self stream_tags nread nwritten input
         before tag after v0 v1 rest secs frac,
    well_formed self = true ->
    get_tags_in_window stream_tags nread 0 (Z.of_nat (length input))
      rx_time_key = before ++ tag :: after ->
    forallb well_formed_tag before = true ->
    forallb (fun t => negb (is_tuple (value t))) after = true ->
    value tag = pmt_tuple (v0 :: v1 :: rest) ->
    to_uint64 v0 = Returns secs -> to_double v1 = Returns frac ->
    exists self' ss,
      work phase_wrap gr_expj self stream_tags nread nwritten input
        = Returns (self', ss) /\
      d_t0 self' = (Z2double secs + frac)%float /\
      d_sample_t0 self' = offset tag.
Proof.
  intros phase_wrap gr_expj self stream_tags nread nwritten input
         before tag after v0 v1 rest secs frac W Win B Af V S F.
  unfold work. rewrite Win.
  rewrite apply_tags_app.
  pose proof (apply_tags_returns before self B) as R.
  destruct (apply_tags self before) as [self1| | |] eqn:A; try discriminate.
  pose proof (apply_tags_preserves _ _ _ A) as (E1 & E2 & E3 & E4 & E5).
  simpl apply_tags. unfold apply_tag at 1. rewrite V. simpl.
  rewrite S, F.
  rewrite (apply_tags_without_tuples after _ Af). simpl.
  unfold well_formed in W. apply andb_true_iff in W as [W1 W2].
  apply Nat.eqb_eq in W1. apply Nat.ltb_lt in W2.
  destruct (sample_loop_returns phase_wrap gr_expj
              (mk_impl (d_phase self1) (d_samp_rate self1)
                 (d_current_index self1) (Z2double secs + frac) (offset tag)
                 (times self1) (freqs_rad_per_sample self1))
              nwritten input 0%Z (d_phase self1) (d_current_index self1))
    as (ss & p & i & E & _); simpl; try congruence.
  rewrite E. eauto.
Qed.

Lemma last_event_replaces_the_anchor_witness :
  exists self' ss,
    work wrap_one_turn unit_oscillator anchored_block [event_at_1] 0 0
      [unit_sample; unit_sample] = Returns (self', ss) /\
    d_t0 self' = (Z2double 50 + 0)%float /\ d_sample_t0 self' = 1%Z.
Proof.
  apply (last_event_replaces_the_anchor wrap_one_turn unit_oscillator
           anchored_block [event_at_1] 0 0 [unit_sample; unit_sample]
           [] event_at_1 [] (pmt_uint64 50) (pmt_real 0) [] 50%Z 0%float);
    reflexivity.
Defined.

(** X12.  A malformed event stops [work].  If a tag of the window is a tuple
    with fewer than two elements, or one whose first element is no
    non-negative integer or whose second element is no number, [work] ends
    in the exception of the [pmt] accessor and produces no output, whatever
    the block and the samples are. *)
Theorem malformed_event_makes_work_throw :
  forall phase_wrap gr_expj self stream_tags nread nwritten input,
    existsb (fun t => negb (well_formed_tag t))
      (get_tags_in_window stream_tags nread 0 (Z.of_nat (length input))
         rx_time_key) = true ->
    exists w,
      work phase_wrap gr_expj self stream_tags nread nwritten input
        = Throws w.
Proof.
  intros phase_wrap gr_expj self stream_tags nread nwritten input H.
  unfold work.
  destruct (apply_tags_throws _ self H) as [w E]. rewrite E. eauto.
Qed.

Lemma malformed_event_makes_work_throw_witness :
  exists w,
    work wrap_one_turn unit_oscillator anchored_block
      [mk_tag 0 rx_time_key (pmt_tuple [pmt_uint64 50])] 0 0
      [unit_sample] = Throws w.
Proof.
  apply (malformed_event_makes_work_throw wrap_one_turn unit_oscillator
           anchored_block [mk_tag 0 rx_time_key (pmt_tuple [pmt_uint64 50])]
           0 0 [unit_sample]).
  reflexivity.
Defined.

(** X13.  Cutting a buffer in two does not change the output.  On a stream
    without [rx_time] tags, [work] on a first buffer, then on a second one
    with the item counter advanced by the length of the first, returns the
    samples and the block that one call of [work] returns on the two buffers
    joined. *)
Theorem work_on_split_buffers_is_work_on_the_whole :
  forall phase_wrap gr_expj self stream_tags nread nread' nwritten in1 in2
         self1 ss1 self2 ss2,
    forallb (fun t => negb (String.eqb (key t) rx_time_key)) stream_tags
      = true ->
    work phase_wrap gr_expj self stream_tags nread nwritten in1
      = Returns (self1, ss1) ->
    work phase_wrap gr_expj self1 stream_tags nread'
      (nwritten + Z.of_nat (length in1)) in2 = Returns (self2, ss2) ->
    work phase_wrap gr_expj self stream_tags nread nwritten (in1 ++ in2)
      = Returns (self2, ss1 ++ ss2).
Proof.
  intros phase_wrap gr_expj self stream_tags nread nread' nwritten in1 in2
         self1 ss1 self2 ss2 K.
  unfold work. rewrite !(window_without_key _ _ _ _ _ K). simpl apply_tags.
  cbv beta iota.
  destruct (sample_loop phase_wrap gr_expj self nwritten 0%Z in1
              (d_phase self) (d_current_index self))
    as [[[s1 p1] i1]| | |] eqn:L1; try discriminate.
  intros [= <- <-]. simpl.
  rewrite (sample_loop_same_fields phase_wrap gr_expj self _ _ in2)
    by reflexivity.
  rewrite <- (sample_loop_shift phase_wrap gr_expj self
                (Z.of_nat (length in1)) in2 nwritten 0%Z).
  rewrite (sample_loop_app phase_wrap gr_expj self nwritten in2 in1 _ _ _ _ _
             _ L1).
  destruct (sample_loop phase_wrap gr_expj self nwritten
              (0 + Z.of_nat (length in1)) in2 p1 i1)
    as [[[s2 p2] i2]| | |]; try discriminate.
  now intros [= <- <-].
Qed.

(** A block with a table rising from 0 to 10 Hz over one second, at 1000
    samples per second, and the two halves of a run on it. *)
Definition ramp_block : doppler_correction_impl :=
  mk_impl 0 1000 0 0 0 [0; 1]%float [0%float; angular 1000 10].

Definition outcome_pair
    (r : outcome (doppler_correction_impl * list sample))
    : doppler_correction_impl * list sample :=
  match r with
  | Returns p => p
  | _ => (ramp_block, [])
  end.

Definition first_half : doppler_correction_impl * list sample :=
  outcome_pair (work wrap_one_turn unit_oscillator ramp_block [] 0 0
                  [unit_sample; unit_sample]).

Definition second_half : doppler_correction_impl * list sample :=
  outcome_pair (work wrap_one_turn unit_oscillator (fst first_half) [] 2 2
                  [some_sample]).

Lemma work_on_split_buffers_is_work_on_the_whole_witness :
  work wrap_one_turn unit_oscillator ramp_block [] 0 0
    ([unit_sample; unit_sample] ++ [some_sample])
  = Returns (fst second_half, snd first_half ++ snd second_half).
Proof.
  apply (work_on_split_buffers_is_work_on_the_whole
           wrap_one_turn unit_oscillator ramp_block [] 0 2 0
           [unit_sample; unit_sample] [some_sample]
           (fst first_half) (snd first_half)
           (fst second_half) (snd second_half));
    vm_compute; reflexivity.
Defined.

(** X14.  The sample the anchor names is timed at the anchor time: for a
    finite [d_t0] and a sample rate that is a number other than zero, the
    time computed for the sample whose absolute index is [d_sample_t0] equals
    ([==]) [d_t0]. *)
Theorem anchor_sample_is_timed_at_the_anchor_time :
  forall t0 sample_t0 samp_rate nitems_written j,
    (nitems_written + j = sample_t0)%Z ->
    Double.is_finite t0 = true ->
    SF.nonzero_number (Prim2SF samp_rate) = true ->
    (sample_time t0 sample_t0 samp_rate nitems_written j =? t0)%float = true.
Proof.
  intros t0 s0 sr nw j E F N. unfold sample_time.
  replace (nw - s0 + j)%Z with 0%Z by lia.
  change (Z2double (0 mod two64)) with 0%float.
  apply add_zero_eqb; [exact F|].
  apply zero_div_nonzero; [reflexivity|exact N].
Qed.

Lemma anchor_sample_is_timed_at_the_anchor_time_witness :
  (sample_time 50 1 1000 0 1 =? 50)%float = true.
Proof.
  apply anchor_sample_is_timed_at_the_anchor_time; reflexivity.
Defined.

(** X15.  The sample count of line 79 is unsigned.  For a sample at or after
    the anchor's sample index the time is [d_t0 + n / rate], [n] the number
    of samples since the anchor; for a sample [d] samples before it the
    count wraps around and the time is [d_t0 + (2^64 - d) / rate]. *)
Theorem sample_count_wraps_before_the_anchor :
  forall t0 sample_t0 samp_rate nitems_written j d,
    (0 <= d < two64)%Z ->
    ((nitems_written + j = sample_t0 + d)%Z ->
     sample_time t0 sample_t0 samp_rate nitems_written j
     = (t0 + Z2double d / samp_rate)%float) /\
    ((nitems_written + j = sample_t0 - d)%Z -> (0 < d)%Z ->
     sample_time t0 sample_t0 samp_rate nitems_written j
     = (t0 + Z2double (two64 - d) / samp_rate)%float).
Proof.
  intros t0 s0 sr nw j d D. unfold sample_time. split.
  - intros E. replace (nw - s0 + j)%Z with d by lia.
    now rewrite Z.mod_small.
  - intros E P. replace (nw - s0 + j)%Z with (two64 - d + -1 * two64)%Z by lia.
    rewrite Z.mod_add by (unfold two64; lia).
    rewrite Z.mod_small by lia. reflexivity.
Qed.

Lemma sample_count_wraps_before_the_anchor_witness :
  sample_time 50 1 1 0 3 = (50 + Z2double 2 / 1)%float /\
  sample_time 50 1 1 0 0 = (50 + Z2double (two64 - 1) / 1)%float.
Proof.
  destruct (sample_count_wraps_before_the_anchor 50%float 1%Z 1%float 0%Z
              3%Z 2%Z ltac:(unfold two64; lia)) as [After _].
  destruct (sample_count_wraps_before_the_anchor 50%float 1%Z 1%float 0%Z
              0%Z 1%Z ltac:(unfold two64; lia)) as [_ Before].
  split; [apply After|apply Before]; lia.
Defined.

Lemma window_app l1 l2 nread a b k :
  get_tags_in_window (l1 ++ l2) nread a b k
  = get_tags_in_window l1 nread a b k ++ get_tags_in_window l2 nread a b k.
Proof. unfold get_tags_in_window. apply filter_app. Qed.

Lemma window_outside stream_tags nread a b k :
  forallb (fun t => negb (String.eqb (key t) k)
                    || (offset t <? nread + a)%Z
                    || (nread + b <=? offset t)%Z) stream_tags = true ->
  get_tags_in_window stream_tags nread a b k = [].
Proof.
  unfold get_tags_in_window.
  induction stream_tags as [|t rest IH]; simpl; [reflexivity|].
  intros H. apply andb_true_iff in H as [H1 H2]. rewrite (IH H2).
  replace ((nread + a <=? offset t)%Z && (offset t <? nread + b)%Z
           && (key t =? k)%string) with false; [reflexivity|].
  symmetry.
  apply orb_true_iff in H1 as [H1|H1]; [apply orb_true_iff in H1 as [H1|H1]|].
  - apply negb_true_iff in H1. rewrite H1. apply andb_false_r.
  - apply Z.ltb_lt in H1.
    replace (nread + a <=? offset t)%Z with false
      by (symmetry; apply Z.leb_gt; lia).
    reflexivity.
  - apply Z.leb_le in H1.
    replace (offset t <? nread + b)%Z with false
      by (symmetry; apply Z.ltb_ge; lia).
    now rewrite andb_false_r.
Qed.

(** X16.  [work] looks only at the [rx_time] tags of its own buffer: tags
    under another key, and tags whose offset lies before the buffer or at or
    after its end, can be added to the stream, before or after the others,
    without changing what [work] returns. *)
Theorem tags_outside_the_buffer_are_ignored :
  forall phase_wrap gr_expj self stream_tags others nread nwritten input,
    forallb (fun t => negb (String.eqb (key t) rx_time_key)
                      || (offset t <? nread + 0)%Z
                      || (nread + Z.of_nat (length input) <=? offset t)%Z)
      others = true ->
    work phase_wrap gr_expj self (others ++ stream_tags) nread nwritten input
    = work phase_wrap gr_expj self stream_tags nread nwritten input /\
    work phase_wrap gr_expj self (stream_tags ++ others) nread nwritten input
    = work phase_wrap gr_expj self stream_tags nread nwritten input.
Proof.
  intros phase_wrap gr_expj self stream_tags others nread nwritten input O.
  unfold work. rewrite !window_app, (window_outside _ _ _ _ _ O).
  rewrite app_nil_r. split; reflexivity.
Qed.

Lemma tags_outside_the_buffer_are_ignored_witness :
  work wrap_one_turn unit_oscillator ramp_block
    ([mk_tag 0 "rx_rate" (pmt_real 1000); mk_tag 7 rx_time_key (pmt_real 1)]
     ++ [event_at_1]) 0 0 [unit_sample; unit_sample]
  = work wrap_one_turn unit_oscillator ramp_block [event_at_1] 0 0
      [unit_sample; unit_sample].
Proof.
  apply (tags_outside_the_buffer_are_ignored wrap_one_turn unit_oscillator
           ramp_block [event_at_1]
           [mk_tag 0 "rx_rate" (pmt_real 1000);
            mk_tag 7 rx_time_key (pmt_real 1)]
           0 0 [unit_sample; unit_sample]).
  reflexivity.
Defined.

(** ** A stream of buffers *)

(** One call of [work] by the runtime: the tags on the input, the two item
    counters and the input samples. *)
Record buffer := mk_buffer {
  b_tags : list tag_t;
  b_nitems_read : Z;
  b_nitems_written : Z;
  b_input : list gr_complex
}.

Section Run.
Variable phase_wrap : float -> float.
Variable gr_expj : float -> gr_complex.

(** The runtime calls [work] buffer after buffer on the same block. *)
Fixpoint run (self : doppler_correction_impl) (bufs : list buffer)
    : outcome (doppler_correction_impl * list (list sample)) :=
  match bufs with
  | [] => Returns (self, [])
  | b :: rest =>
      match work phase_wrap gr_expj self (b_tags b) (b_nitems_read b)
              (b_nitems_written b) (b_input b) with
      | Returns (self1, ss) =>
          match run self1 rest with
          | Returns (self2, outs) => Returns (self2, ss :: outs)
          | other => other
          end
      | Throws w => Throws w
      | Undefined => Undefined
      | Diverges => Diverges
      end
  end.

Lemma run_returns bufs : forall self,
  well_formed self = true ->
  forallb (fun b => forallb well_formed_tag (b_tags b)) bufs = true ->
  exists self' outs,
    run self bufs = Returns (self', outs) /\
    map (@length sample) outs = map (fun b => length (b_input b)) bufs /\
    times self' = times self /\
    freqs_rad_per_sample self' = freqs_rad_per_sample self /\
    d_current_index self <= d_current_index self'.
Proof.
  induction bufs as [|b rest IH]; intros self W T; simpl.
  - exists self, []. repeat split; lia.
  - simpl in T. apply andb_true_iff in T as [T1 T2].
    destruct (work_returns phase_wrap gr_expj self (b_tags b)
                (b_nitems_read b) (b_nitems_written b) (b_input b) W T1)
      as (self1 & ss & R & W1).
    rewrite R.
    destruct (IH self1 W1 T2) as (self2 & outs & R2 & Len & Tm & Fr & Ix).
    rewrite R2. exists self2, (ss :: outs).
    revert R. unfold work.
    destruct (apply_tags self _) as [s1| | |] eqn:A; try discriminate.
    pose proof (apply_tags_preserves _ _ _ A) as (E1 & E2 & E3 & E4 & E5).
    destruct (sample_loop _ _ _ _ _ _ _ _) as [[[ss1 p] i]| | |] eqn:L;
      try discriminate.
    intros [= <- <-]. simpl in *.
    pose proof (sample_loop_times _ _ _ _ _ _ _ _ _ _ _ L) as [Len1 _].
    pose proof (sample_loop_cursor _ _ _ _ _ _ _ _ _ _ _ L) as C.
    repeat split; try congruence; lia.
Qed.

End Run.

(** X17.  A block that construction returned can process any stream.  For
    every file that loads, every sequence of buffers whose tags are well
    formed is processed to the end: no call of [work] reads outside the
    table or throws, each returns as many samples as it was given, and at the
    end the table is the one that was loaded and the cursor has not moved
    back. *)
Theorem constructed_block_processes_every_stream :
  forall phase_wrap gr_expj contents sr t0 time0 frequency0 self bufs,
    make contents sr t0 time0 frequency0 = Returns self ->
    forallb (fun b => forallb well_formed_tag (b_tags b)) bufs = true ->
    exists self' outs,
      run phase_wrap gr_expj self bufs = Returns (self', outs) /\
      map (@length sample) outs = map (fun b => length (b_input b)) bufs /\
      times self' = times self /\
      freqs_rad_per_sample self' = freqs_rad_per_sample self /\
      d_current_index self <= d_current_index self'.
Proof.
  intros phase_wrap gr_expj contents sr t0 time0 frequency0 self bufs M T.
  apply run_returns; [|exact T].
  exact (make_well_formed _ _ _ _ _ _ M).
Qed.

Lemma constructed_block_processes_every_stream_witness :
  exists self' outs,
    run wrap_one_turn unit_oscillator
      (mk_impl 0 1000 0 0 0 [0; 1]%float [0%float; angular 1000 10])
      [mk_buffer [event_at_1] 0 0 [unit_sample; unit_sample];
       mk_buffer [] 2 2 [some_sample]]
    = Returns (self', outs) /\
    map (@length sample) outs = [2; 1].
Proof.
  destruct (constructed_block_processes_every_stream
              wrap_one_turn unit_oscillator (Some "0 0 1 10"%string)
              1000%float 0%float 0%float 0%float
              (mk_impl 0 1000 0 0 0 [0; 1]%float [0%float; angular 1000 10])
              [mk_buffer [event_at_1] 0 0 [unit_sample; unit_sample];
               mk_buffer [] 2 2 [some_sample]])
    as (self' & outs & R & Len & _).
  - vm_compute. reflexivity.
  - reflexivity.
  - exists self', outs. split; [exact R|exact Len].
Defined.
